(** * go-search: the argument resolver and the tree search engine

    A shallow embedding of [cmd/search.go].  The program parses its
    argument vector by hand ([ParseFlags]), walks a directory tree with
    [filepath.WalkDir], spawns one goroutine per entry that survives the
    type filter, and collects the paths whose base name matches a glob
    pattern ([Search]); [main] prints the outcome.

    Definitions:
    - [Cli]      : [Options], [displayHelp], [ParseFlags];
    - [Fs]       : the directory tree the traversal primitive enumerates,
                   and [WalkDir] / [walkDir] as the Go library defines
                   them, over a callback that threads its closure state;
    - [Engine]   : the walk callback of [Search], the matcher goroutines
                   as a step function over the variables they share
                   ([pattern], [matches], [mu]), [Search] under a schedule
                   of its goroutines, and [main];
    - [RefPlatform] : an ASCII instance of the library functions the
                   program calls ([strings.ToLower], [filepath.Base],
                   [filepath.Join], [filepath.Match]), on which the engine
                   is run on concrete trees;
    - [Props], [Sample] : the notions the statements use, and a sample
                   tree.

    Properties:
    - [CliFacts]      : the argument resolver;
    - [WalkFacts]     : the traversal visits every entry of the tree;
    - [PoolFacts], [InOrderFacts], [ProgressFacts] : the goroutines: the
                   invariant of the pool, the run in order of discovery,
                   and the absence of deadlock;
    - [EngineFacts]   : the search as a whole;
    - [SampleFacts]   : the engine on the sample tree. *)

From Stdlib Require Import ZArith Ascii String.
From stdpp Require Import base list strings.

Set Warnings "-register-all".

Local Open Scope string_scope.
Local Open Scope list_scope.

(** ** Argument resolver *)

Module Cli.

(** [type Options struct] *)
Record Options : Type := mkOptions {
  isFileOnly : bool;
  isDirOnly : bool;
  isCaseSensitive : bool;
  directory : string;
  pattern : string
}.

(** The zero value of [Options] ([var opts Options]). *)
Definition zeroOptions : Options := mkOptions false false false "" "".

Definition set_isFileOnly (o : Options) : Options :=
  mkOptions true (isDirOnly o) (isCaseSensitive o) (directory o) (pattern o).
Definition set_isDirOnly (o : Options) : Options :=
  mkOptions (isFileOnly o) true (isCaseSensitive o) (directory o) (pattern o).
Definition set_isCaseSensitive (o : Options) : Options :=
  mkOptions (isFileOnly o) (isDirOnly o) true (directory o) (pattern o).
Definition set_positionals (o : Options) (dir pat : string) : Options :=
  mkOptions (isFileOnly o) (isDirOnly o) (isCaseSensitive o) dir pat.

(** The four [case] labels of the [switch arg] in [ParseFlags]. *)
Definition is_file_flag (arg : string) : bool :=
  String.eqb arg "-f" || String.eqb arg "--file".
Definition is_dir_flag (arg : string) : bool :=
  String.eqb arg "-d" || String.eqb arg "--dir".
Definition is_case_flag (arg : string) : bool :=
  String.eqb arg "-c" || String.eqb arg "--casesensitive".
Definition is_help_flag (arg : string) : bool :=
  String.eqb arg "-h" || String.eqb arg "--help".

(** The [default] label: the token is a positional argument. *)
Definition is_positional (arg : string) : bool :=
  negb (is_file_flag arg || is_dir_flag arg || is_case_flag arg || is_help_flag arg).

Definition tab : string := String (ascii_of_nat 9) EmptyString.

(** [displayHelp]: the lines written to standard output. *)
Definition displayHelp (program : string) : list string :=
  [ "Usage: " +:+ program +:+ " <directory> <pattern> [OPTIONS]";
    "Options:";
    "  -f, --file        " +:+ tab +:+ " Only return files";
    "  -d, --dir         " +:+ tab +:+ " Only return directories";
    "  -c, --casesensitive    Make the search case-sensitive";
    "  -h, --help        " +:+ tab +:+ " Display this help message" ].

(** What a call of [ParseFlags] can do: panic on [args[0]] of an empty
    slice, leave the process through [os.Exit(0)] after printing the help,
    return an error, or return the options. *)
Inductive parse_result : Type :=
| ParsePanic
| ParseExit (out : list string) (code : Z)
| ParseError (msg : string)
| ParseOk (o : Options).

(** The [for _, arg := range args] loop.  [inl out] is the help request:
    [displayHelp(program); os.Exit(0)] ends the process in the middle of
    the loop; [inr] is the state at the end of the loop. *)
Fixpoint parse_loop (program : string) (args : list string)
    (opts : Options) (positionalArgs : list string)
    : list string + (Options * list string) :=
  match args with
  | [] => inr (opts, positionalArgs)
  | arg :: rest =>
      if is_file_flag arg then
        parse_loop program rest (set_isFileOnly opts) positionalArgs
      else if is_dir_flag arg then
        parse_loop program rest (set_isDirOnly opts) positionalArgs
      else if is_case_flag arg then
        parse_loop program rest (set_isCaseSensitive opts) positionalArgs
      else if is_help_flag arg then
        inl (displayHelp program)
      else
        parse_loop program rest opts (positionalArgs ++ [arg])
  end.

Definition err_positional : string := "invalid number of positional arguments".
Definition err_exclusive : string :=
  "you cannot use both --fileonly and --dironly at the same time".

(** [ParseFlags(args)], [args] being [os.Args]: program name first. *)
Definition ParseFlags (args : list string) : parse_result :=
  match args with
  | [] => ParsePanic
  | program :: args =>
      match parse_loop program args zeroOptions [] with
      | inl out => ParseExit out 0
      | inr (opts, positionalArgs) =>
          match positionalArgs with
          | [dir; pat] =>
              let opts := set_positionals opts dir pat in
              if isFileOnly opts && isDirOnly opts
              then ParseError err_exclusive
              else ParseOk opts
          | _ => ParseError err_positional
          end
      end
  end.

End Cli.

(** ** The traversal primitive *)

Module Fs.

(** The cause wrapped by an [*os.PathError]: a [syscall.Errno] or any
    other error value. *)
Inductive syserr : Type :=
| Errno (code : Z)
| Cause (msg : string).

(** The error values the program can meet. *)
Inductive error : Type :=
| PathError (op path : string) (cause : syserr)
| ErrorString (msg : string)
| SkipDir
| SkipAll.

(** [syscall.ERROR_ACCESS_DENIED] *)
Definition ERROR_ACCESS_DENIED : Z := 5.

(** [filepath.ErrBadPattern] *)
Definition ErrBadPattern : error := ErrorString "syntax error in pattern".

(** [os.DirEntry], as far as the program reads it. *)
Record DirEntry : Type := mkDirEntry { Name : string; IsDir : bool }.

(** A directory tree as the traversal primitive sees it.  A directory
    carries what [os.ReadDir] returns for it: the entries read (in the
    order returned) and the error, if the read failed. *)
Inductive node : Type :=
| File (name : string)
| Dir (name : string) (rd_err : option error) (children : list node).

Definition name_of (n : node) : string :=
  match n with File name => name | Dir name _ _ => name end.

Definition is_dir (n : node) : bool :=
  match n with File _ => false | Dir _ _ _ => true end.

Definition entry_of (n : node) : DirEntry := mkDirEntry (name_of n) (is_dir n).

(** [os.Lstat(root)]: an error, or the tree found there. *)
Inductive lstat_result : Type :=
| LstatFails (e : error)
| LstatOk (n : node).

Definition filesystem : Type := string -> lstat_result.

(** One call of the [fs.WalkDirFunc]: [fn(path, d, nil)] for an entry, or
    [fn(path, d, err)] with a non-nil [err] ([d] is nil when the [Lstat] of
    the root failed). *)
Inductive visit : Type :=
| Entry (path : string) (d : DirEntry)
| Failure (path : string) (d : option DirEntry) (err : error).

Definition is_SkipDir (e : error) : bool :=
  match e with SkipDir => true | _ => false end.

Section Walk.
Context {S : Type}.
Variable Join : string -> string -> string.

(** The callback threads the state [S] of its closure. *)
Definition WalkDirFunc : Type := visit -> S -> S * option error.

(** [walkDir(path, d, walkDirFn)] of [path/filepath]. *)
Fixpoint walkDir (path : string) (n : node) (walkDirFn : WalkDirFunc) (s : S)
    : S * option error :=
  let d := entry_of n in
  let '(s1, err) := walkDirFn (Entry path d) s in
  match err with
  | Some e => (s1, if is_SkipDir e && IsDir d then None else Some e)
  | None =>
      match n with
      | File _ => (s1, None)
      | Dir _ rd_err dirs =>
          let '(s2, err) :=
            match rd_err with
            | Some e => walkDirFn (Failure path (Some d) e) s1
            | None => (s1, None)
            end in
          match err with
          | Some e => (s2, if is_SkipDir e && IsDir d then None else Some e)
          | None =>
              (fix range (dirs : list node) (s : S) : S * option error :=
                 match dirs with
                 | [] => (s, None)
                 | d1 :: rest =>
                     let path1 := Join path (name_of d1) in
                     let '(s', err) := walkDir path1 d1 walkDirFn s in
                     match err with
                     | Some e => (s', if is_SkipDir e then None else Some e)
                     | None => range rest s'
                     end
                 end) dirs s2
          end
      end
  end.

(** The loop over the entries of a directory, as a function of its own. *)
Fixpoint walkDirs (path : string) (dirs : list node) (walkDirFn : WalkDirFunc)
    (s : S) : S * option error :=
  match dirs with
  | [] => (s, None)
  | d1 :: rest =>
      let '(s', err) := walkDir (Join path (name_of d1)) d1 walkDirFn s in
      match err with
      | Some e => (s', if is_SkipDir e then None else Some e)
      | None => walkDirs path rest walkDirFn s'
      end
  end.

(** [filepath.WalkDir(root, fn)] *)
Definition WalkDir (fs : filesystem) (root : string) (fn : WalkDirFunc) (s : S)
    : S * option error :=
  let '(s', err) :=
    match fs root with
    | LstatFails e => fn (Failure root None e) s
    | LstatOk n => walkDir root n fn s
    end in
  (s', match err with
       | Some SkipDir | Some SkipAll => None
       | _ => err
       end).
End Walk.

(** [InTree Join root n path m]: the entry [m] is found at [path] below the
    tree [n] rooted at [root], through the entries [os.ReadDir] returns. *)
Inductive InTree (Join : string -> string -> string)
    : string -> node -> string -> node -> Prop :=
| InTree_root root n : InTree Join root n root n
| InTree_child root n path name rd_err dirs c :
    InTree Join root n path (Dir name rd_err dirs) ->
    In c dirs ->
    InTree Join root n (Join path (name_of c)) c.

End Fs.

(** ** The tree search engine *)

Module Engine.
Import Fs.

(** What [Search] leaves behind: the lines it printed while walking, and
    its two results. *)
Record search_result : Type := mkResult {
  printed : list string;
  matches : list string;
  err : option error
}.

(** The closure state of the walk callback: the lines printed so far and
    the goroutines started so far ([go func(path, d) {...}(path, d)]), in
    the order of discovery. *)
Record walk_state : Type := mkWalk {
  out : list string;
  spawned : list (string * DirEntry)
}.

Definition walk_init : walk_state := mkWalk [] [].

Definition print (s : walk_state) (line : string) : walk_state :=
  mkWalk (out s ++ [line]) (spawned s).

Definition spawn (s : walk_state) (path : string) (d : DirEntry) : walk_state :=
  mkWalk (out s) (spawned s ++ [(path, d)]).

(** Where a matcher goroutine stands.  Every access to a variable shared
    between goroutines ([pattern], [matches], [mu]) is a step of its own. *)
Inductive pc : Type :=
| AtStart                                   (* nothing run yet *)
| AtStore (baseName lowered : string)       (* [pattern = lowered] pending *)
| AtMatch (baseName : string)               (* [filepath.Match] pending *)
| AtLock                                    (* [mu.Lock()] pending *)
| AtAppend                                  (* lock held, append pending *)
| AtUnlock                                  (* [mu.Unlock()] pending *)
| Finished.                                 (* [wg.Done()] run *)

Record goroutine : Type := mkGo { g_path : string; g_pc : pc }.

(** The variables of [Search] the goroutines share, and the goroutines. *)
Record pool : Type := mkPool {
  v_pattern : string;
  v_matches : list string;
  v_locked : bool;
  gs : list goroutine
}.

Definition is_finished (g : goroutine) : bool :=
  match g_pc g with Finished => true | _ => false end.

(** [wg.Wait()] returns once every goroutine has run [wg.Done()]. *)
Definition all_done (p : pool) : bool := forallb is_finished (gs p).

(** Between [mu.Lock()] and [mu.Unlock()]. *)
Definition in_critical (g : goroutine) : bool :=
  match g_pc g with AtAppend | AtUnlock => true | _ => false end.

Section Platform.
(** The library functions the program calls. *)
Variable ToLower : string -> string.                      (* strings.ToLower *)
Variable Base : string -> string.                         (* filepath.Base *)
Variable Join : string -> string -> string.               (* filepath.Join *)
Variable Match : string -> string -> bool * option error. (* filepath.Match *)
Variable errno_text : Z -> string.                        (* Errno.Error *)

(** [err.Error()] *)
Definition Error (e : error) : string :=
  match e with
  | PathError op path (Errno code) => op +:+ " " +:+ path +:+ ": " +:+ errno_text code
  | PathError op path (Cause msg) => op +:+ " " +:+ path +:+ ": " +:+ msg
  | ErrorString msg => msg
  | SkipDir => "skip this directory"
  | SkipAll => "skip everything and stop the walk"
  end.

(** The two type assertions of the callback and the comparison with
    [syscall.ERROR_ACCESS_DENIED]. *)
Definition is_access_denied (e : error) : bool :=
  match e with
  | PathError _ _ (Errno code) => Z.eqb code ERROR_ACCESS_DENIED
  | _ => false
  end.

(** The function literal passed to [filepath.WalkDir]. *)
Definition walkFn (isFileOnly isDirOnly : bool) (v : visit) (s : walk_state)
    : walk_state * option error :=
  match v with
  | Failure path _ e =>
      if is_access_denied e
      then (print s ("Skipping: " +:+ path +:+ " (Access Denied)"), None)
      else (print s ("Skipping: " +:+ Error e +:+ " (Unhandle Error)"), None)
  | Entry path d =>
      if isFileOnly && IsDir d then (s, None)
      else if isDirOnly && negb (IsDir d) then (s, None)
      else (spawn s path d, None)
  end.

(** [err == nil && matched] *)
Definition accepted (r : bool * option error) : bool :=
  match r with
  | (matched, None) => matched
  | (_, Some _) => false
  end.

(** One step of goroutine [i] of the pool; [None] when there is no such
    goroutine, when it has finished, or when it waits for the lock. *)
Definition step (isCaseSensitive : bool) (i : nat) (p : pool) : option pool :=
  match gs p !! i with
  | None => None
  | Some g =>
      let goto (c : pc) := <[i := mkGo (g_path g) c]> (gs p) in
      match g_pc g with
      | AtStart =>
          let baseName := Base (g_path g) in
          if isCaseSensitive
          then Some (mkPool (v_pattern p) (v_matches p) (v_locked p)
                       (goto (AtMatch baseName)))
          else Some (mkPool (v_pattern p) (v_matches p) (v_locked p)
                       (goto (AtStore (ToLower baseName) (ToLower (v_pattern p)))))
      | AtStore baseName lowered =>
          Some (mkPool lowered (v_matches p) (v_locked p) (goto (AtMatch baseName)))
      | AtMatch baseName =>
          if accepted (Match (v_pattern p) baseName)
          then Some (mkPool (v_pattern p) (v_matches p) (v_locked p) (goto AtLock))
          else Some (mkPool (v_pattern p) (v_matches p) (v_locked p) (goto Finished))
      | AtLock =>
          if v_locked p then None
          else Some (mkPool (v_pattern p) (v_matches p) true (goto AtAppend))
      | AtAppend =>
          Some (mkPool (v_pattern p) (v_matches p ++ [g_path g]) (v_locked p)
                  (goto AtUnlock))
      | AtUnlock =>
          Some (mkPool (v_pattern p) (v_matches p) false (goto Finished))
      | Finished => None
      end
  end.

(** A schedule names the goroutine that takes each step. *)
Fixpoint exec (isCaseSensitive : bool) (sched : list nat) (p : pool) : option pool :=
  match sched with
  | [] => Some p
  | i :: rest =>
      match step isCaseSensitive i p with
      | Some p' => exec isCaseSensitive rest p'
      | None => None
      end
  end.

(** The pool when the walk has started every goroutine and none has run. *)
Definition start (pattern : string) (tasks : list (string * DirEntry)) : pool :=
  mkPool pattern [] false (map (fun t => mkGo (fst t) AtStart) tasks).

(** The number of steps a goroutine takes when run alone from a pool
    whose pattern variable holds [pattern]. *)
Definition steps_alone (isCaseSensitive : bool) (pattern path : string) : nat :=
  if isCaseSensitive
  then (if accepted (Match pattern (Base path)) then 5 else 2)
  else (if accepted (Match (ToLower pattern) (ToLower (Base path))) then 6 else 3).

(** The schedule that runs each goroutine to its end before the next
    one starts, in the order of discovery. *)
Fixpoint in_order (isCaseSensitive : bool) (pattern : string) (i : nat)
    (tasks : list (string * DirEntry)) : list nat :=
  match tasks with
  | [] => []
  | t :: rest =>
      replicate (steps_alone isCaseSensitive pattern (fst t)) i
      ++ in_order isCaseSensitive
           (if isCaseSensitive then pattern else ToLower pattern) (S i) rest
  end.

(** [Search], run under a schedule of its goroutines: the walk, then
    [wg.Wait()], which returns when every goroutine has finished.  [None]
    when the schedule is not one of a complete run. *)
Definition Search_under (sched : list nat) (fs : filesystem)
    (rootDir pattern : string) (isFileOnly isDirOnly isCaseSensitive : bool)
    : option search_result :=
  let '(w, err) := WalkDir Join fs rootDir (walkFn isFileOnly isDirOnly) walk_init in
  match exec isCaseSensitive sched (start pattern (spawned w)) with
  | Some p => if all_done p then Some (mkResult (out w) (v_matches p) err) else None
  | None => None
  end.

(** The body of a goroutine run without interruption: its effect on the
    pattern variable and on [matches]. *)
Definition run_alone (isCaseSensitive : bool) (path : string)
    (st : string * list string) : string * list string :=
  let '(pattern, matches) := st in
  let baseName := Base path in
  let '(baseName, pattern) :=
    if isCaseSensitive then (baseName, pattern)
    else (ToLower baseName, ToLower pattern) in
  if accepted (Match pattern baseName)
  then (pattern, matches ++ [path])
  else (pattern, matches).

(** [Search], its goroutines run one after the other in the order of
    discovery. *)
Definition Search (fs : filesystem) (rootDir pattern : string)
    (isFileOnly isDirOnly isCaseSensitive : bool) : search_result :=
  let '(w, err) := WalkDir Join fs rootDir (walkFn isFileOnly isDirOnly) walk_init in
  let '(_, matches) :=
    fold_left (fun st t => run_alone isCaseSensitive (fst t) st)
              (spawned w) (pattern, []) in
  mkResult (out w) matches err.

(** [main]: the lines printed and the exit code of the process.  A panic
    of [ParseFlags] ends the process with code 2. *)
Definition main (fs : filesystem) (Args : list string) : list string * Z :=
  match Cli.ParseFlags Args with
  | Cli.ParsePanic => ([], 2%Z)
  | Cli.ParseExit help code => (help, code)
  | Cli.ParseError msg =>
      (("Error: " +:+ msg) :: Cli.displayHelp (hd "" Args), 1%Z)
  | Cli.ParseOk opts =>
      let r := Search fs (Cli.directory opts) (Cli.pattern opts)
                 (Cli.isFileOnly opts) (Cli.isDirOnly opts)
                 (Cli.isCaseSensitive opts) in
      match err r with
      | Some e => (printed r ++ ["Error during file search: " +:+ Error e], 0%Z)
      | None =>
          match matches r with
          | [] => (printed r ++ ["No path matches the pattern"], 0%Z)
          | ms => (printed r ++ "Found Paths:" :: ms, 0%Z)
          end
      end
  end.
End Platform.

End Engine.

(** ** A reference instance of the library primitives

    The engine is parametric in the library functions it calls.  To run
    it on concrete trees this module supplies an instance for ASCII
    strings and clean, volume-less Windows paths (the program is
    Windows-only: it names [syscall.ERROR_ACCESS_DENIED]).  Bytes outside
    ASCII are treated as opaque one-byte characters. *)

Module RefPlatform.
Import Fs.

Definition Separator : ascii := "\"%char.

(** [os.IsPathSeparator] on Windows *)
Definition IsPathSeparator (c : ascii) : bool :=
  Ascii.eqb c "\"%char || Ascii.eqb c "/"%char.

Definition lower_ascii (c : ascii) : ascii :=
  let n := nat_of_ascii c in
  if (65 <=? n)%nat && (n <=? 90)%nat then ascii_of_nat (n + 32) else c.

(** [strings.ToLower] on ASCII *)
Fixpoint ToLower (s : string) : string :=
  match s with
  | EmptyString => EmptyString
  | String c rest => String (lower_ascii c) (ToLower rest)
  end.

Fixpoint drop_seps (l : list ascii) : list ascii :=
  match l with
  | c :: rest => if IsPathSeparator c then drop_seps rest else l
  | [] => []
  end.

Fixpoint take_elem (l : list ascii) : list ascii :=
  match l with
  | c :: rest => if IsPathSeparator c then [] else c :: take_elem rest
  | [] => []
  end.

(** [filepath.Base] for a path without a volume name: the empty path
    gives ".", trailing separators are dropped, the last element is
    kept, and a path of separators only gives one separator. *)
Definition Base (path : string) : string :=
  match path with
  | EmptyString => "."
  | _ =>
      let stripped := drop_seps (rev (list_ascii_of_string path)) in
      match rev (take_elem stripped) with
      | [] => String Separator EmptyString
      | last => string_of_list_ascii last
      end
  end.

(** [filepath.Join] of a clean directory path and an entry name. *)
Definition Join (dir name : string) : string :=
  match dir with
  | EmptyString => name
  | _ => dir +:+ String Separator EmptyString +:+ name
  end.

(** The text of a [syscall.Errno]. *)
Definition errno_text (code : Z) : string :=
  if Z.eqb code 5 then "Access is denied."
  else if Z.eqb code 2 then "The system cannot find the file specified."
  else if Z.eqb code 3 then "The system cannot find the path specified."
  else "errno".

(** *** Glob matching, after [filepath.Match] on Windows (where the
    backslash is the separator and not an escape character) *)

Fixpoint skip_stars (pattern : list ascii) : bool * list ascii :=
  match pattern with
  | c :: rest =>
      if Ascii.eqb c "*"%char then (true, snd (skip_stars rest)) else (false, pattern)
  | [] => (false, [])
  end.

Fixpoint scan (inrange : bool) (pattern : list ascii) : list ascii * list ascii :=
  match pattern with
  | [] => ([], [])
  | c :: rest =>
      if Ascii.eqb c "*"%char && negb inrange then ([], pattern)
      else
        let inrange :=
          if Ascii.eqb c "["%char then true
          else if Ascii.eqb c "]"%char then false
          else inrange in
        let '(chunk, rest) := scan inrange rest in
        (c :: chunk, rest)
  end.

(** [scanChunk]: the leading stars, the chunk up to the next star outside
    a class, and the rest of the pattern. *)
Definition scanChunk (pattern : list ascii) : bool * list ascii * list ascii :=
  let '(star, pattern) := skip_stars pattern in
  let '(chunk, rest) := scan false pattern in
  (star, chunk, rest).

(** [getEsc]: one character of a class; [None] is [ErrBadPattern]. *)
Definition getEsc (chunk : list ascii) : option (ascii * list ascii) :=
  match chunk with
  | [] => None
  | c :: nchunk =>
      if Ascii.eqb c "-"%char || Ascii.eqb c "]"%char then None
      else match nchunk with
           | [] => None
           | _ => Some (c, nchunk)
           end
  end.

Definition in_range (lo hi : ascii) (r : nat) : bool :=
  (nat_of_ascii lo <=? r)%nat && (r <=? nat_of_ascii hi)%nat.

(** The loop over the ranges of a class; [r] is the character under
    test. *)
Fixpoint ranges (fuel : nat) (chunk : list ascii) (r : nat) (matched : bool)
    (nrange : nat) : option (bool * list ascii) :=
  match fuel with
  | O => None
  | S fuel =>
      match chunk, nrange with
      | c :: rest, S _ =>
          if Ascii.eqb c "]"%char then Some (matched, rest)
          else one_range fuel chunk r matched nrange
      | _, _ => one_range fuel chunk r matched nrange
      end
  end
with one_range (fuel : nat) (chunk : list ascii) (r : nat) (matched : bool)
    (nrange : nat) : option (bool * list ascii) :=
  match fuel with
  | O => None
  | S fuel =>
      match getEsc chunk with
      | None => None
      | Some (lo, chunk) =>
          match chunk with
          | c :: after =>
              if Ascii.eqb c "-"%char then
                match getEsc after with
                | None => None
                | Some (hi, chunk) =>
                    ranges fuel chunk r (matched || in_range lo hi r) (S nrange)
                end
              else ranges fuel chunk r (matched || in_range lo lo r) (S nrange)
          | [] => None
          end
      end
  end.

Inductive chunk_result : Type :=
| ChunkBad                       (* err = ErrBadPattern *)
| ChunkNo                        (* ok = false *)
| ChunkOk (rest : list ascii).   (* ok = true *)

(** [matchChunk]: after the match has failed the chunk is still read to
    its end, to find a malformed class. *)
Fixpoint matchChunk (fuel : nat) (chunk s : list ascii) (failed : bool)
    : chunk_result :=
  match fuel with
  | O => ChunkBad
  | S fuel =>
      match chunk with
      | [] => if failed then ChunkNo else ChunkOk s
      | c :: chunk' =>
          let failed := failed || match s with [] => true | _ => false end in
          if Ascii.eqb c "["%char then
            let '(r, s') :=
              if failed then (O, s)
              else match s with
                   | c0 :: s' => (nat_of_ascii c0, s')
                   | [] => (O, s)
                   end in
            let '(negated, chunk1) :=
              match chunk' with
              | n :: t => if Ascii.eqb n "^"%char then (true, t) else (false, chunk')
              | [] => (false, chunk')
              end in
            match ranges (2 * S (length chunk1)) chunk1 r false 0 with
            | None => ChunkBad
            | Some (matched, chunk2) =>
                matchChunk fuel chunk2 s' (failed || Bool.eqb matched negated)
            end
          else
            match s with
            | c0 :: s' =>
                if failed then matchChunk fuel chunk' s failed
                else if Ascii.eqb c "?"%char
                     then matchChunk fuel chunk' s' (Ascii.eqb c0 Separator)
                     else matchChunk fuel chunk' s' (negb (Ascii.eqb c c0))
            | [] => matchChunk fuel chunk' s failed
            end
      end
  end.

Definition match_chunk (chunk s : list ascii) : chunk_result :=
  matchChunk (S (length chunk)) chunk s false.

Inductive skip_result : Type :=
| SkipBad
| SkipNone
| SkipTo (rest : list ascii).

(** The loop of [Match] that lets a star swallow one more byte at a time,
    up to the next separator. *)
Fixpoint skip_loop (chunk : list ascii) (last : bool) (name : list ascii)
    : skip_result :=
  match name with
  | [] => SkipNone
  | c :: name' =>
      if Ascii.eqb c Separator then SkipNone
      else
        match match_chunk chunk name' with
        | ChunkOk t =>
            match last, t with
            | true, _ :: _ => skip_loop chunk last name'
            | _, _ => SkipTo t
            end
        | ChunkBad => SkipBad
        | ChunkNo => skip_loop chunk last name'
        end
  end.

Definition is_nil (l : list ascii) : bool :=
  match l with [] => true | _ => false end.

Fixpoint match_loop (fuel : nat) (pattern name : list ascii) : bool * option error :=
  match fuel with
  | O => (false, Some ErrBadPattern)
  | S fuel =>
      match pattern with
      | [] => (is_nil name, None)
      | _ =>
          let '(star, chunk, pattern) := scanChunk pattern in
          if star && is_nil chunk
          then (negb (existsb (Ascii.eqb Separator) name), None)
          else
            let retry :=
              if star then
                match skip_loop chunk (is_nil pattern) name with
                | SkipTo t => match_loop fuel pattern t
                | SkipBad => (false, Some ErrBadPattern)
                | SkipNone => (false, None)
                end
              else (false, None) in
            match match_chunk chunk name with
            | ChunkOk t =>
                if is_nil t || negb (is_nil pattern)
                then match_loop fuel pattern t
                else retry
            | ChunkBad => (false, Some ErrBadPattern)
            | ChunkNo => retry
            end
      end
  end.

Definition Match (pattern name : string) : bool * option error :=
  let p := list_ascii_of_string pattern in
  match_loop (S (length p)) p (list_ascii_of_string name).

End RefPlatform.

(** ** Notions the statements are written with *)

Module Props.
Import Fs Engine.

(** The positional tokens of an argument vector, in their order. *)
Definition positionals (args : list string) : list string :=
  List.filter Cli.is_positional args.

Definition has_flag (f : string -> bool) (args : list string) : bool :=
  existsb f args.

(** The number of goroutines between [mu.Lock()] and [mu.Unlock()]. *)
Definition crit (l : list goroutine) : nat :=
  length (filter (fun g => Is_true (in_critical g)) l).

(** A bound on the steps a goroutine has left. *)
Definition remaining (g : goroutine) : nat :=
  match g_pc g with
  | AtStart => 6
  | AtStore _ _ => 5
  | AtMatch _ => 4
  | AtLock => 3
  | AtAppend => 2
  | AtUnlock => 1
  | Finished => 0
  end.

Definition work (l : list goroutine) : nat := list_sum (map remaining l).

Section Platform.
Variable ToLower : string -> string.
Variable Base : string -> string.
Variable Join : string -> string -> string.
Variable Match : string -> string -> bool * option error.
Variable errno_text : Z -> string.

(** The calls [walkDir] makes of a callback that never returns an
    error: the entry, the read error of a directory if any, then the
    entries read from it, depth first. *)
Fixpoint visits (path : string) (n : node) : list visit :=
  Entry path (entry_of n) ::
  match n with
  | File _ => []
  | Dir _ rd_err dirs =>
      match rd_err with
      | Some e => [Failure path (Some (entry_of n)) e]
      | None => []
      end ++
      (fix each (dirs : list node) : list visit :=
         match dirs with
         | [] => []
         | d1 :: rest => visits (Join path (name_of d1)) d1 ++ each rest
         end) dirs
  end.

Fixpoint visits_dirs (path : string) (dirs : list node) : list visit :=
  match dirs with
  | [] => []
  | d1 :: rest => visits (Join path (name_of d1)) d1 ++ visits_dirs path rest
  end.

(** The same for [WalkDir]. *)
Definition root_visits (fs : filesystem) (root : string) : list visit :=
  match fs root with
  | LstatFails e => [Failure root None e]
  | LstatOk n => visits root n
  end.

(** The type filter lets the entry through to the match test. *)
Definition survives (isFileOnly isDirOnly : bool) (d : DirEntry) : bool :=
  negb (isFileOnly && IsDir d) && negb (isDirOnly && negb (IsDir d)).

(** Case folding per configuration. *)
Definition folded (isCaseSensitive : bool) (s : string) : string :=
  if isCaseSensitive then s else ToLower s.

(** The base name of [path], folded, matches the pattern, folded. *)
Definition name_matches (isCaseSensitive : bool) (pattern path : string) : bool :=
  accepted (Match (folded isCaseSensitive pattern)
                  (folded isCaseSensitive (Base path))).

(** The line the callback prints for an error at [path]. *)
Definition diagnostic (path : string) (e : error) : string :=
  if is_access_denied e
  then "Skipping: " +:+ path +:+ " (Access Denied)"
  else "Skipping: " +:+ Error errno_text e +:+ " (Unhandle Error)".

(** The state of the callback after the calls [vs]. *)
Definition after_visits (isFileOnly isDirOnly : bool) (vs : list visit)
    (s : walk_state) : walk_state :=
  fold_left (fun s v => fst (walkFn errno_text isFileOnly isDirOnly v s)) vs s.

(** *** Invariant of the goroutine pool *)

Definition paths (p : pool) : list string := map g_path (gs p).

(** What a goroutine has in its locals, given the value [pat] of the
    shared pattern variable and the pattern [p0] passed to [Search]. *)
Definition goroutine_ok (cs : bool) (p0 pat : string) (g : goroutine) : Prop :=
  match g_pc g with
  | AtStart => True
  | AtStore baseName lowered =>
      cs = false /\ baseName = ToLower (Base (g_path g)) /\ lowered = ToLower p0
  | AtMatch baseName =>
      baseName = folded cs (Base (g_path g)) /\ pat = folded cs p0
  | AtLock | AtAppend | AtUnlock => name_matches cs p0 (g_path g) = true
  | Finished => True
  end.

(** What a goroutine has appended to [matches] so far. *)
Definition appended (cs : bool) (p0 : string) (g : goroutine) : list string :=
  match g_pc g with
  | AtUnlock => [g_path g]
  | Finished => if name_matches cs p0 (g_path g) then [g_path g] else []
  | _ => []
  end.

Definition holders (p : pool) : nat := crit (gs p).

Record inv (cs : bool) (p0 : string) (p : pool) : Prop := mkInv {
  inv_pattern : v_pattern p = p0 \/ v_pattern p = folded cs p0;
  inv_locals : Forall (goroutine_ok cs p0 (v_pattern p)) (gs p);
  inv_matches : v_matches p ≡ₚ concat (map (appended cs p0) (gs p));
  inv_lock : holders p = if v_locked p then 1 else 0
}.
End Platform.

(** The short spelling of a flag; any other token is left as it is. *)
Definition canonical (arg : string) : string :=
  if String.eqb arg "--file" then "-f"
  else if String.eqb arg "--dir" then "-d"
  else if String.eqb arg "--casesensitive" then "-c"
  else if String.eqb arg "--help" then "-h"
  else arg.

(** The diagnostics of the errors among the calls [vs], in their order. *)
Fixpoint reported (errno_text : Z -> string) (vs : list visit) : list string :=
  match vs with
  | [] => []
  | Entry _ _ :: rest => reported errno_text rest
  | Failure path _ e :: rest =>
      diagnostic errno_text path e :: reported errno_text rest
  end.

(** The entries among the calls [vs] that the type filter lets through,
    in their order. *)
Fixpoint tested (isFileOnly isDirOnly : bool) (vs : list visit)
    : list (string * DirEntry) :=
  match vs with
  | [] => []
  | Entry path d :: rest =>
      if survives isFileOnly isDirOnly d
      then (path, d) :: tested isFileOnly isDirOnly rest
      else tested isFileOnly isDirOnly rest
  | Failure _ _ _ :: rest => tested isFileOnly isDirOnly rest
  end.

(** The paths of the entries among the calls [vs]. *)
Definition entry_paths (vs : list visit) : list string :=
  map fst (tested false false vs).

(** A file, or a directory from which no entry was read. *)
Definition no_entries (n : node) : bool :=
  match n with
  | File _ => true
  | Dir _ _ [] => true
  | Dir _ _ (_ :: _) => false
  end.

(** The lock is taken exactly when one goroutine is between [mu.Lock()]
    and [mu.Unlock()], and then there is one only. *)
Definition lock_ok (p : pool) : Prop :=
  crit (gs p) = if v_locked p then 1 else 0.

(** The goroutine is not about to assign to the pattern variable. *)
Definition never_stores (g : goroutine) : bool :=
  match g_pc g with
  | AtStore _ _ => false
  | _ => true
  end.

(** What [main] prints after the walk when [Search] returned no error. *)
Definition report (ms : list string) : list string :=
  match ms with
  | [] => ["No path matches the pattern"]
  | _ => "Found Paths:" :: ms
  end.

End Props.

(** ** A sample tree *)

Module Sample.
Import Fs Engine.

Definition file_not_found (path : string) : error :=
  PathError "CreateFile" path (Errno 2).

Definition access_denied (path : string) : error :=
  PathError "open" path (Errno ERROR_ACCESS_DENIED).

Definition sub : node := Dir "sub" None [File "a.txt"].

Definition locked : node := Dir "locked" (Some (access_denied "root\locked")) [].

(** [root] holds two files, a directory that cannot be read and a
    directory with one file. *)
Definition tree : node :=
  Dir "root" None [File "B.TXT"; File "a.txt"; locked; sub].

(** Only [root] exists. *)
Definition disk : filesystem :=
  fun path =>
    if String.eqb path "root" then LstatOk tree
    else LstatFails (file_not_found path).

(** The engine on the reference instance of the library. *)
Definition Search_ref :=
  Search RefPlatform.ToLower RefPlatform.Base RefPlatform.Join
         RefPlatform.Match RefPlatform.errno_text.
Definition Search_under_ref :=
  Search_under RefPlatform.ToLower RefPlatform.Base RefPlatform.Join
               RefPlatform.Match RefPlatform.errno_text.
Definition main_ref :=
  main RefPlatform.ToLower RefPlatform.Base RefPlatform.Join
       RefPlatform.Match RefPlatform.errno_text.
Definition exec_ref :=
  exec RefPlatform.ToLower RefPlatform.Base RefPlatform.Match.

(** The six goroutines of an unfiltered search of [disk], three steps
    each in turn, then the two whose name matches take the lock one after
    the other, the later one first. *)
Definition interleaved : list nat :=
  [0; 1; 2; 3; 4; 5; 0; 1; 2; 3; 4; 5; 0; 1; 2; 3; 4; 5; 5; 5; 5; 2; 2; 2]%nat.

(** The same three rounds, then the goroutine of [B.TXT] alone. *)
Definition round_robin : list nat :=
  [0; 1; 2; 3; 4; 5; 0; 1; 2; 3; 4; 5; 0; 1; 2; 3; 4; 5; 1; 1; 1]%nat.

(** The goroutines the walk of [root] starts under the two flags. *)
Definition tasks_ref (fs : filesystem) (root : string) (fo do : bool)
    : list (string * DirEntry) :=
  spawned (fst (WalkDir RefPlatform.Join fs root
                  (walkFn RefPlatform.errno_text fo do) walk_init)).

(** The schedule in order of discovery, on the reference instance. *)
Definition in_order_ref (fs : filesystem) (root pattern : string)
    (fo do cs : bool) : list nat :=
  in_order RefPlatform.ToLower RefPlatform.Base RefPlatform.Match
           cs pattern 0 (tasks_ref fs root fo do).

(** A disk whose only entry is an empty directory. *)
Definition lone_disk : filesystem :=
  fun path =>
    if String.eqb path "empty" then LstatOk (Dir "empty" None [])
    else LstatFails (file_not_found path).

(** Two goroutines for two files of the same name. *)
Definition two_tasks : list (string * DirEntry) :=
  [("root\a.txt", mkDirEntry "a.txt" false);
   ("root\sub\a.txt", mkDirEntry "a.txt" false)].

(** Both goroutines up to [mu.Lock()], which the first one then takes. *)
Definition contended : list nat := [0; 1; 0; 1; 0; 1; 0]%nat.

End Sample.

(** * Properties of the argument resolver *)

Module CliFacts.
Import Cli Props.

Ltac flag_cases :=
  repeat match goal with
  | H : (_ || _)%bool = true |- _ => apply orb_prop in H; destruct H
  | H : String.eqb _ _ = true |- _ => apply String.eqb_eq in H; subst
  end.

Lemma file_flag_only a :
  is_file_flag a = true ->
  is_dir_flag a = false /\ is_case_flag a = false /\ is_help_flag a = false.
Proof. unfold is_file_flag; intros H; flag_cases; repeat split; reflexivity. Qed.

Lemma dir_flag_only a :
  is_dir_flag a = true ->
  is_file_flag a = false /\ is_case_flag a = false /\ is_help_flag a = false.
Proof. unfold is_dir_flag; intros H; flag_cases; repeat split; reflexivity. Qed.

Lemma case_flag_only a :
  is_case_flag a = true ->
  is_file_flag a = false /\ is_dir_flag a = false /\ is_help_flag a = false.
Proof. unfold is_case_flag; intros H; flag_cases; repeat split; reflexivity. Qed.

(** The state at the end of the loop when no token asks for help. *)
Lemma parse_loop_end program args : forall opts pos,
  has_flag is_help_flag args = false ->
  parse_loop program args opts pos =
  inr (mkOptions (isFileOnly opts || has_flag is_file_flag args)
                 (isDirOnly opts || has_flag is_dir_flag args)
                 (isCaseSensitive opts || has_flag is_case_flag args)
                 (directory opts) (pattern opts),
       pos ++ positionals args).
Proof.
  unfold has_flag, positionals.
  induction args as [|a args IH]; intros opts pos Hh; simpl in *.
  - rewrite !orb_false_r, app_nil_r. by destruct opts.
  - apply orb_false_iff in Hh as [Ha Hh]. unfold is_positional. rewrite Ha.
    destruct (is_file_flag a) eqn:Ef.
    { destruct (file_flag_only a Ef) as (-> & -> & _). simpl.
      rewrite IH by done. simpl. by rewrite !orb_true_r. }
    destruct (is_dir_flag a) eqn:Ed.
    { destruct (dir_flag_only a Ed) as (_ & -> & _). simpl.
      rewrite IH by done. simpl. by rewrite !orb_true_r. }
    destruct (is_case_flag a) eqn:Ec.
    { simpl. rewrite IH by done. simpl. by rewrite !orb_true_r. }
    simpl. rewrite IH by done. by rewrite <- app_assoc.
Qed.

(** A help request anywhere in the vector ends the loop. *)
Lemma parse_loop_help program args : forall opts pos,
  has_flag is_help_flag args = true ->
  parse_loop program args opts pos = inl (displayHelp program).
Proof.
  unfold has_flag.
  induction args as [|a args IH]; intros opts pos Hh; simpl in *; [done|].
  destruct (is_file_flag a) eqn:Ef.
  { destruct (file_flag_only a Ef) as (_ & _ & Eh). rewrite Eh in Hh. by apply IH. }
  destruct (is_dir_flag a) eqn:Ed.
  { destruct (dir_flag_only a Ed) as (_ & _ & Eh). rewrite Eh in Hh. by apply IH. }
  destruct (is_case_flag a) eqn:Ec.
  { destruct (case_flag_only a Ec) as (_ & _ & Eh). rewrite Eh in Hh. by apply IH. }
  destruct (is_help_flag a); [done|]. by apply IH.
Qed.

(** [ParseFlags] as a function of the flags present and the positional
    tokens. *)
Lemma ParseFlags_unfold program args :
  ParseFlags (program :: args) =
  if has_flag is_help_flag args then ParseExit (displayHelp program) 0
  else match positionals args with
       | [dir; pat] =>
           if has_flag is_file_flag args && has_flag is_dir_flag args
           then ParseError err_exclusive
           else ParseOk (mkOptions (has_flag is_file_flag args)
                                   (has_flag is_dir_flag args)
                                   (has_flag is_case_flag args) dir pat)
       | _ => ParseError err_positional
       end.
Proof.
  unfold ParseFlags. destruct (has_flag is_help_flag args) eqn:Hh.
  - by rewrite parse_loop_help.
  - rewrite parse_loop_end by done. simpl.
    destruct (positionals args) as [|d [|p [|x l]]]; done.
Qed.

Lemma has_flag_Permutation f (l1 l2 : list string) :
  l1 ≡ₚ l2 -> has_flag f l1 = has_flag f l2.
Proof.
  unfold has_flag. induction 1 as [|x l l' _ IH|x y l|l l' l'' _ IH1 _ IH2]; simpl.
  - done.
  - by rewrite IH.
  - by rewrite !orb_assoc, (orb_comm (f y)).
  - congruence.
Qed.

(** C6.  If an argument vector resolves to a configuration, every
    rearrangement of its tokens that keeps the positional tokens in their
    relative order resolves to the same configuration. *)
Theorem ParseFlags_order_independent program (args1 args2 : list string) o :
  args1 ≡ₚ args2 ->
  positionals args1 = positionals args2 ->
  ParseFlags (program :: args1) = ParseOk o ->
  ParseFlags (program :: args2) = ParseOk o.
Proof.
  intros Hperm Hpos. rewrite !ParseFlags_unfold.
  rewrite <- Hpos, !(has_flag_Permutation _ _ _ Hperm). done.
Qed.

Lemma ParseFlags_order_independent_witness :
  ParseFlags ["search"; "root"; "-f"; "*.go"; "-c"] =
    ParseOk (mkOptions true false true "root" "*.go") /\
  ParseFlags ["search"; "-c"; "-f"; "root"; "*.go"] =
    ParseOk (mkOptions true false true "root" "*.go").
Proof.
  split; [reflexivity|].
  apply (ParseFlags_order_independent "search" ["root"; "-f"; "*.go"; "-c"]).
  - change ["root"; "-f"; "*.go"; "-c"] with (["root"; "-f"; "*.go"] ++ ["-c"]).
    change ["-c"; "-f"; "root"; "*.go"] with (["-c"] ++ ["-f"; "root"; "*.go"]).
    etrans; [apply Permutation_app_comm|]. simpl.
    apply perm_skip. apply perm_swap.
  - reflexivity.
  - reflexivity.
Defined.

(** C7, as the code has it.  An argument vector with both the file-only
    and the directory-only toggle and no help request never resolves: the
    result is a usage error, the one on the positional count when there
    are not exactly two positional tokens, the one on the two toggles
    otherwise. *)
Theorem both_toggles_fail program (args : list string) :
  has_flag is_file_flag args = true ->
  has_flag is_dir_flag args = true ->
  has_flag is_help_flag args = false ->
  ParseFlags (program :: args) =
  ParseError (if Nat.eqb (length (positionals args)) 2
        then err_exclusive else err_positional).
Proof.
  intros Hf Hd Hh. rewrite ParseFlags_unfold, Hh, Hf, Hd.
  destruct (positionals args) as [|d [|p [|x l]]]; done.
Qed.

Lemma both_toggles_fail_witness :
  ParseFlags ["search"; "-f"; "root"; "--dir"; "*.go"] = ParseError err_exclusive.
Proof.
  apply (both_toggles_fail "search" ["-f"; "root"; "--dir"; "*.go"]); reflexivity.
Defined.

(** C7 fails as stated: with a help request in the vector the two
    toggles do not lead to a usage error; the help is printed and the
    process ends with code 0. *)
Lemma both_toggles_with_help :
  has_flag is_file_flag ["-f"; "-d"; "-h"] = true /\
  has_flag is_dir_flag ["-f"; "-d"; "-h"] = true /\
  ParseFlags ["search"; "-f"; "-d"; "-h"] = ParseExit (displayHelp "search") 0 /\
  ~ (exists msg, ParseFlags ["search"; "-f"; "-d"; "-h"] = ParseError msg).
Proof.
  repeat split; try reflexivity. intros [msg H]. discriminate H.
Qed.

(** C9, as the code has it.  Without a help request, a positional count
    other than two gives the error on the positional count, whatever
    toggles are set: the count is checked before the two toggles are. *)
Theorem positional_check_first program (args : list string) :
  has_flag is_help_flag args = false ->
  length (positionals args) <> 2 ->
  ParseFlags (program :: args) = ParseError err_positional.
Proof.
  intros Hh Hn. rewrite ParseFlags_unfold, Hh.
  destruct (positionals args) as [|d [|p [|x l]]]; done.
Qed.

Lemma positional_check_first_witness :
  has_flag is_file_flag ["-f"; "root"; "-d"] = true /\
  has_flag is_dir_flag ["-f"; "root"; "-d"] = true /\
  ParseFlags ["search"; "-f"; "root"; "-d"] = ParseError err_positional.
Proof.
  split; [reflexivity|]. split; [reflexivity|].
  apply (positional_check_first "search" ["-f"; "root"; "-d"]).
  - reflexivity.
  - simpl. lia.
Defined.

(** C9 fails as stated: one positional token and both toggles, but the
    help request ends the process with code 0 before any check. *)
Lemma positional_count_with_help :
  length (positionals ["-f"; "-d"; "only"; "--help"]) <> 2 /\
  ParseFlags ["search"; "-f"; "-d"; "only"; "--help"] =
    ParseExit (displayHelp "search") 0 /\
  ParseFlags ["search"; "-f"; "-d"; "only"; "--help"] <> ParseError err_positional.
Proof. repeat split; try reflexivity; simpl; [lia|discriminate]. Qed.

End CliFacts.

(** * Properties of the traversal *)

Module WalkFacts.
Import Fs Engine Props.

(** Induction on a tree, with the hypothesis for every entry of a
    directory. *)
Lemma node_rect_Forall (P : node -> Prop) :
  (forall name, P (File name)) ->
  (forall name rd_err dirs, Forall P dirs -> P (Dir name rd_err dirs)) ->
  forall n, P n.
Proof.
  intros HF HD. fix IH 1. intros [name|name rd_err dirs].
  - apply HF.
  - apply HD. induction dirs as [|d dirs IHdirs]; constructor; [apply IH|apply IHdirs].
Qed.

Section Generic.
Context {S : Type}.
Variable Join : string -> string -> string.
Variable fn : @WalkDirFunc S.
Hypothesis fn_nil : forall v s, snd (fn v s) = None.

(** The state of the closure after the calls [vs]. *)
Local Abbreviation run := (fold_left (fun s v => fst (fn v s))).

Lemma fn_nil_eq v s : fn v s = (fst (fn v s), None).
Proof. rewrite <- (fn_nil v s). by destruct (fn v s). Qed.

Lemma walkDir_Dir path name rd_err dirs s :
  walkDir Join path (Dir name rd_err dirs) fn s =
  let s1 := fst (fn (Entry path (entry_of (Dir name rd_err dirs))) s) in
  let s2 := match rd_err with
            | Some e => fst (fn (Failure path (Some (entry_of (Dir name rd_err dirs))) e) s1)
            | None => s1
            end in
  walkDirs Join path dirs fn s2.
Proof.
  cbn zeta. simpl walkDir. rewrite (fn_nil_eq (Entry _ _) s).
  set (s1 := fst (fn (Entry path (entry_of (Dir name rd_err dirs))) s)).
  assert (Hrange : forall s0,
    (fix range (dirs : list node) (s : S) : S * option error :=
       match dirs with
       | [] => (s, None)
       | d1 :: rest =>
           let '(s', err) := walkDir Join (Join path (name_of d1)) d1 fn s in
           match err with
           | Some e => (s', if is_SkipDir e then None else Some e)
           | None => range rest s'
           end
       end) dirs s0 = walkDirs Join path dirs fn s0).
  { clear. induction dirs as [|d1 rest IH]; intros s0; [done|].
    simpl. destruct (walkDir Join _ d1 fn s0) as [s' [e'|]]; [done|]. apply IH. }
  destruct rd_err as [e|].
  - rewrite (fn_nil_eq (Failure _ _ _) s1). apply Hrange.
  - apply Hrange.
Qed.

Lemma visits_Dir path name rd_err dirs :
  visits Join path (Dir name rd_err dirs) =
  Entry path (entry_of (Dir name rd_err dirs)) ::
  match rd_err with
  | Some e => [Failure path (Some (entry_of (Dir name rd_err dirs))) e]
  | None => []
  end ++ visits_dirs Join path dirs.
Proof.
  simpl. do 2 f_equal. induction dirs as [|d1 rest IH]; [done|].
  simpl. by rewrite IH.
Qed.

(** A callback that never returns an error is called on every entry of
    the tree, and [walkDir] returns nil. *)
Lemma walkDir_total n : forall path s,
  walkDir Join path n fn s = (run (visits Join path n) s, None).
Proof.
  induction n as [name|name rd_err dirs IH] using node_rect_Forall; intros path s.
  - simpl. by rewrite (fn_nil_eq (Entry _ _) s).
  - rewrite walkDir_Dir, visits_Dir. cbn zeta. simpl.
    rewrite fold_left_app.
    match goal with
    | |- walkDirs _ _ _ _ ?a = (fold_left _ _ ?b, _) =>
        replace b with a by (by destruct rd_err)
    end.
    generalize (match rd_err with
                | Some e =>
                    fst (fn (Failure path (Some (entry_of (Dir name rd_err dirs))) e)
                           (fst (fn (Entry path (entry_of (Dir name rd_err dirs))) s)))
                | None => fst (fn (Entry path (entry_of (Dir name rd_err dirs))) s)
                end).
    clear s. induction IH as [|d1 rest Hd1 _ IHrest]; intros s; [done|].
    simpl. rewrite Hd1, fold_left_app. apply IHrest.
Qed.

Lemma WalkDir_total fs root s :
  WalkDir Join fs root fn s = (run (root_visits Join fs root) s, None).
Proof.
  unfold WalkDir, root_visits. destruct (fs root) as [e|n].
  - rewrite (fn_nil_eq (Failure _ _ _) s). done.
  - by rewrite walkDir_total.
Qed.
End Generic.

Section Tree.
Variable Join : string -> string -> string.

Lemma visits_dirs_In path dirs c v :
  In c dirs -> In v (visits Join (Join path (name_of c)) c) ->
  In v (visits_dirs Join path dirs).
Proof.
  induction dirs as [|d1 rest IH]; simpl; [done|].
  intros [->|Hc] Hv; apply in_or_app; [by left|right; by apply IH].
Qed.

(** The visits of a subtree are visits of the tree. *)
Lemma InTree_incl root n path m :
  InTree Join root n path m ->
  forall v, In v (visits Join path m) -> In v (visits Join root n).
Proof.
  induction 1 as [|root n path name rd_err dirs c _ IH Hc]; [done|].
  intros v Hv. apply IH. rewrite visits_Dir. right.
  apply in_or_app. right. by eapply visits_dirs_In.
Qed.

Lemma visits_head path m : In (Entry path (entry_of m)) (visits Join path m).
Proof. destruct m; simpl; by left. Qed.

(** Every entry of the tree is visited. *)
Lemma InTree_visited root n path m :
  InTree Join root n path m -> In (Entry path (entry_of m)) (visits Join root n).
Proof. intros H. eapply InTree_incl; [done|apply visits_head]. Qed.

(** Every read error in the tree is reported. *)
Lemma InTree_reported root n path name e dirs :
  InTree Join root n path (Dir name (Some e) dirs) ->
  In (Failure path (Some (entry_of (Dir name (Some e) dirs))) e) (visits Join root n).
Proof.
  intros H. eapply InTree_incl; [done|]. rewrite visits_Dir. right. by left.
Qed.

Lemma InTree_trans root n path m path' m' :
  InTree Join root n path m -> InTree Join path m path' m' ->
  InTree Join root n path' m'.
Proof.
  intros H1 H2. induction H2; [done|]. eapply InTree_child; eauto.
Qed.

Lemma visits_dirs_inv path dirs v :
  In v (visits_dirs Join path dirs) ->
  exists c, In c dirs /\ In v (visits Join (Join path (name_of c)) c).
Proof.
  induction dirs as [|d1 rest IH]; simpl; [done|].
  intros Hin. apply in_app_or in Hin as [Hin|Hin].
  - exists d1. split; [by left|done].
  - destruct (IH Hin) as (c & Hc & Hv). exists c. split; [by right|done].
Qed.

(** Conversely, every visit is of an entry of the tree. *)
Lemma visited_InTree n : forall root path d,
  In (Entry path d) (visits Join root n) ->
  exists m, InTree Join root n path m /\ d = entry_of m.
Proof.
  induction n as [name|name rd_err dirs IH] using node_rect_Forall; intros root path d.
  - simpl. intros [[= <- <-]|[]]. eexists; split; [constructor|done].
  - rewrite visits_Dir. intros [[= <- <-]|Hin].
    { eexists; split; [constructor|done]. }
    apply in_app_or in Hin as [Hin|Hin].
    { destruct rd_err; simpl in Hin; [destruct Hin as [?|[]]; done|done]. }
    apply visits_dirs_inv in Hin as (c & Hc & Hv).
    rewrite Forall_forall in IH.
    destruct (IH c (proj2 (list_elem_of_In _ _) Hc) _ _ _ Hv) as (m & Hm & ->).
    exists m. split; [|done].
    eapply InTree_trans; [|exact Hm].
    eapply InTree_child; [constructor|done].
Qed.
End Tree.

End WalkFacts.

(** * Properties of the goroutine pool *)

Module PoolFacts.
Import Fs Engine Props.

#[local] Arguments Props.folded : simpl never.
#[local] Arguments Props.name_matches : simpl never.

Lemma insert_split {A} (l : list A) i g :
  l !! i = Some g ->
  exists l1 l2, l = l1 ++ g :: l2 /\ forall g', <[i:=g']> l = l1 ++ g' :: l2.
Proof.
  intros Hi. exists (take i l), (drop (S i) l). split.
  - symmetry. by apply take_drop_middle.
  - intros g'. apply insert_take_drop. by eapply lookup_lt_Some.
Qed.

Lemma crit_split l1 g l2 :
  crit (l1 ++ g :: l2) = crit l1 + (if in_critical g then 1 else 0) + crit l2.
Proof.
  unfold crit. rewrite filter_app, length_app, filter_cons.
  destruct (in_critical g); simpl; lia.
Qed.

Lemma concat_split {A B} (f : A -> list B) l1 g l2 :
  concat (map f (l1 ++ g :: l2)) = concat (map f l1) ++ f g ++ concat (map f l2).
Proof. by rewrite map_app, concat_app. Qed.

Section Platform.
Variable ToLower : string -> string.
Variable Base : string -> string.
Variable Match : string -> string -> bool * option error.

Local Abbreviation step := (step ToLower Base Match).
Local Abbreviation exec := (exec ToLower Base Match).
Local Abbreviation inv := (inv ToLower Base Match).
Local Abbreviation goroutine_ok := (goroutine_ok ToLower Base Match).
Local Abbreviation appended := (appended ToLower Base Match).
Local Abbreviation name_matches := (name_matches ToLower Base Match).
Local Abbreviation folded := (folded ToLower).

Variable cs : bool.
Variable p0 : string.

Lemma locals_mono pat pat' g :
  goroutine_ok cs p0 pat g -> pat' = folded cs p0 -> goroutine_ok cs p0 pat' g.
Proof. unfold Props.goroutine_ok. destruct (g_pc g); intuition congruence. Qed.

Lemma start_inv tasks : inv cs p0 (start p0 tasks).
Proof.
  split; simpl.
  - by left.
  - induction tasks; constructor; done.
  - induction tasks; simpl; done.
  - unfold holders, crit. simpl. induction tasks; simpl; [done|].
    rewrite filter_cons. simpl. done.
Qed.

Lemma step_paths i p p' : step cs i p = Some p' -> paths p' = paths p.
Proof.
  unfold Engine.step, paths. destruct (gs p !! i) as [g|] eqn:Hi; [|done].
  assert (Hid : forall c, map g_path (<[i:=mkGo (g_path g) c]> (gs p)) = map g_path (gs p)).
  { intros c. change (g_path <$> <[i:=mkGo (g_path g) c]> (gs p) = g_path <$> gs p).
    rewrite list_fmap_insert. apply list_insert_id.
    by rewrite list_lookup_fmap, Hi. }
  destruct (g_pc g); repeat case_match; intros [= <-]; try done; simpl; apply Hid.
Qed.

Lemma exec_paths sched : forall p p', exec cs sched p = Some p' -> paths p' = paths p.
Proof.
  induction sched as [|i sched IH]; simpl; intros p p'.
  - by intros [= ->].
  - destruct (step cs i p) as [p1|] eqn:Hs; [|done].
    intros H. rewrite (IH _ _ H). by eapply step_paths.
Qed.

Section Idempotent.
(** Lower-casing the pattern a second time does not change it. *)
Hypothesis lower_twice : ToLower (ToLower p0) = ToLower p0.

Lemma step_inv i p p' : inv cs p0 p -> step cs i p = Some p' -> inv cs p0 p'.
Proof.
  intros [Hpat Hloc Hm Hlk]. unfold Engine.step.
  destruct (gs p !! i) as [g|] eqn:Hi; [|done].
  destruct (insert_split _ _ _ Hi) as (l1 & l2 & Hl & Hins).
  unfold holders in Hlk.
  rewrite Hl in Hloc, Hm, Hlk.
  apply Forall_app in Hloc as [Hl1 Hl2]. apply Forall_cons in Hl2 as [Hg Hl2].
  rewrite concat_split in Hm. rewrite crit_split in Hlk.
  unfold Props.goroutine_ok in Hg. unfold Props.appended at 2 in Hm.
  unfold in_critical in Hlk.
  assert (Hbuild : forall (pat : string) (ms : list string) (lk : bool) (c : pc),
    (pat = p0 \/ pat = folded cs p0) ->
    (pat = v_pattern p \/ pat = folded cs p0) ->
    goroutine_ok cs p0 pat (mkGo (g_path g) c) ->
    ms ≡ₚ concat (map (appended cs p0) l1) ++ appended cs p0 (mkGo (g_path g) c)
           ++ concat (map (appended cs p0) l2) ->
    crit l1 + (if in_critical (mkGo (g_path g) c) then 1 else 0) + crit l2
      = (if lk then 1 else 0) ->
    inv cs p0 (mkPool pat ms lk (<[i:=mkGo (g_path g) c]> (gs p)))).
  { intros pat ms lk c H1 H1' H2 H3 H4. rewrite Hins. split; simpl.
    - done.
    - apply Forall_app. split; [|apply Forall_cons; split; [done|]].
      + destruct H1' as [-> | ->]; [done|].
        eapply Forall_impl; [exact Hl1|]. intros; by eapply locals_mono.
      + destruct H1' as [-> | ->]; [done|].
        eapply Forall_impl; [exact Hl2|]. intros; by eapply locals_mono.
    - by rewrite concat_split.
    - unfold holders. simpl. by rewrite crit_split. }
  destruct (g_pc g) as [|bn lo|bn| | | |] eqn:Hpc.
  - (* AtStart *)
    destruct cs eqn:Hcs; intros [= <-]; apply Hbuild; cbn; auto.
    + unfold Props.goroutine_ok; simpl. split; [done|]. by destruct Hpat.
    + unfold Props.goroutine_ok; simpl. repeat split.
      destruct Hpat as [-> | ->]; simpl; done.
  - (* AtStore *)
    destruct Hg as (Hcs & -> & ->). intros [= <-]. apply Hbuild; cbn; auto.
    + right. by rewrite Hcs.
    + right. by rewrite Hcs.
    + unfold Props.goroutine_ok; simpl. rewrite Hcs. done.
  - (* AtMatch *)
    destruct Hg as (-> & Hp).
    destruct (accepted (Match (v_pattern p) (folded cs (Base (g_path g))))) eqn:Hacc;
      intros [= <-]; apply Hbuild; cbn; auto.
    + unfold Props.name_matches. by rewrite <- Hp.
    + unfold Props.name_matches. by rewrite <- Hp, Hacc.
  - (* AtLock *)
    destruct (v_locked p) eqn:Hlocked; [done|]. intros [= <-].
    apply Hbuild; cbn; auto. lia.
  - (* AtAppend *)
    intros [= <-]. apply Hbuild; cbn; auto.
    rewrite Hm. cbn. rewrite <- app_assoc. apply Permutation_app_head.
    symmetry. apply Permutation_cons_append.
  - (* AtUnlock *)
    intros [= <-]. apply Hbuild; cbn; auto.
    + by rewrite Hg.
    + destruct (v_locked p); lia.
  - done.
Qed.

Lemma exec_inv sched : forall p p',
  inv cs p0 p -> exec cs sched p = Some p' -> inv cs p0 p'.
Proof.
  induction sched as [|i sched IH]; simpl; intros p p' Hinv.
  - by intros [= <-].
  - destruct (step cs i p) as [p1|] eqn:Hs; [|done].
    apply IH. by eapply step_inv.
Qed.

Lemma done_appended l :
  forallb is_finished l = true ->
  concat (map (appended cs p0) l) = List.filter (name_matches cs p0) (map g_path l).
Proof.
  induction l as [|g l IH]; simpl; [done|].
  intros [Hg Hl]%andb_prop. rewrite IH by done.
  unfold Props.appended, is_finished in *. destruct (g_pc g); try done.
  by destruct (name_matches cs p0 (g_path g)).
Qed.

(** Whatever the schedule, once every goroutine has finished the
    matches are the paths, as given to the goroutines, whose folded
    base name matches the folded pattern. *)
Lemma complete_run sched tasks p :
  exec cs sched (start p0 tasks) = Some p ->
  all_done p = true ->
  v_matches p ≡ₚ List.filter (name_matches cs p0) (map fst tasks).
Proof.
  intros Hexec Hdone.
  pose proof (exec_inv _ _ _ (start_inv tasks) Hexec) as [_ _ Hm _].
  rewrite Hm, done_appended by done.
  fold (paths p). rewrite (exec_paths _ _ _ Hexec).
  unfold paths, start. simpl. by rewrite map_map.
Qed.
End Idempotent.
End Platform.

End PoolFacts.

(** * The schedule that runs the goroutines one after the other *)

Module InOrderFacts.
Import Fs Engine Props.

Section Platform.
Variable ToLower : string -> string.
Variable Base : string -> string.
Variable Match : string -> string -> bool * option error.

Local Abbreviation step := (step ToLower Base Match).
Local Abbreviation exec := (exec ToLower Base Match).
Local Abbreviation run_alone := (run_alone ToLower Base Match).
Local Abbreviation steps_alone := (steps_alone ToLower Base Match).
Local Abbreviation in_order := (in_order ToLower Base Match).

Lemma exec_app cs s1 : forall s2 p,
  exec cs (s1 ++ s2) p =
  match exec cs s1 p with Some p' => exec cs s2 p' | None => None end.
Proof.
  induction s1 as [|i s1 IH]; simpl; intros s2 p; [done|].
  destruct (step cs i p); [apply IH|done].
Qed.

(** One step of goroutine [i], read off its program counter. *)
Lemma step_at cs i p path c :
  gs p !! i = Some (mkGo path c) ->
  step cs i p =
  let goto c' := <[i := mkGo path c']> (gs p) in
  match c with
  | AtStart =>
      if cs
      then Some (mkPool (v_pattern p) (v_matches p) (v_locked p)
                   (goto (AtMatch (Base path))))
      else Some (mkPool (v_pattern p) (v_matches p) (v_locked p)
                   (goto (AtStore (ToLower (Base path)) (ToLower (v_pattern p)))))
  | AtStore baseName lowered =>
      Some (mkPool lowered (v_matches p) (v_locked p) (goto (AtMatch baseName)))
  | AtMatch baseName =>
      if accepted (Match (v_pattern p) baseName)
      then Some (mkPool (v_pattern p) (v_matches p) (v_locked p) (goto AtLock))
      else Some (mkPool (v_pattern p) (v_matches p) (v_locked p) (goto Finished))
  | AtLock =>
      if v_locked p then None
      else Some (mkPool (v_pattern p) (v_matches p) true (goto AtAppend))
  | AtAppend =>
      Some (mkPool (v_pattern p) (v_matches p ++ [path]) (v_locked p) (goto AtUnlock))
  | AtUnlock => Some (mkPool (v_pattern p) (v_matches p) false (goto Finished))
  | Finished => None
  end.
Proof. intros Hi. unfold Engine.step. rewrite Hi. done. Qed.

Ltac one_step Hlt :=
  match goal with
  | |- context [Engine.step _ _ _ ?cs' ?i ?p] =>
      erewrite (step_at cs' i p);
      [|cbn [gs]; first [eassumption | apply list_lookup_insert_eq; rewrite ?length_insert; exact Hlt]];
      cbn [Engine.exec v_pattern v_matches v_locked gs g_path g_pc];
      rewrite ?list_insert_insert_eq
  end.

(** A goroutine that has not started, run alone while the lock is free,
    finishes in [steps_alone] steps with the effect of [run_alone]. *)
Lemma run_one cs i p path :
  gs p !! i = Some (mkGo path AtStart) ->
  v_locked p = false ->
  exec cs (replicate (steps_alone cs (v_pattern p) path) i) p =
  Some (mkPool (fst (run_alone cs path (v_pattern p, v_matches p)))
               (snd (run_alone cs path (v_pattern p, v_matches p)))
               false
               (<[i := mkGo path Finished]> (gs p))).
Proof.
  intros Hi Hfree. pose proof (lookup_lt_Some _ _ _ Hi) as Hlt.
  unfold Engine.steps_alone, Engine.run_alone. destruct p as [pat ms lk l].
  simpl in *. subst lk. destruct cs.
  - destruct (accepted (Match pat (Base path))) eqn:Hacc;
      cbn [replicate Engine.exec].
    + one_step Hlt. one_step Hlt. rewrite Hacc. one_step Hlt. one_step Hlt.
      one_step Hlt. done.
    + one_step Hlt. one_step Hlt. rewrite Hacc. done.
  - destruct (accepted (Match (ToLower pat) (ToLower (Base path)))) eqn:Hacc;
      cbn [replicate Engine.exec].
    + one_step Hlt. one_step Hlt. one_step Hlt. rewrite Hacc. one_step Hlt.
      one_step Hlt. one_step Hlt. done.
    + one_step Hlt. one_step Hlt. one_step Hlt. rewrite Hacc. done.
Qed.

Lemma run_alone_pattern cs path pat ms :
  fst (run_alone cs path (pat, ms)) = if cs then pat else ToLower pat.
Proof.
  unfold Engine.run_alone. destruct cs.
  - by destruct (accepted (Match pat (Base path))).
  - by destruct (accepted (Match (ToLower pat) (ToLower (Base path)))).
Qed.

(** The in-order schedule runs every goroutine to its end. *)
Lemma in_order_runs cs (tasks : list (string * DirEntry)) :
  forall (finished : list goroutine) pat ms,
  exec cs (in_order cs pat (length finished) tasks)
    (mkPool pat ms false (finished ++ map (fun t => mkGo (fst t) AtStart) tasks)) =
  Some (mkPool
    (fst (fold_left (fun st t => run_alone cs (fst t) st) tasks (pat, ms)))
    (snd (fold_left (fun st t => run_alone cs (fst t) st) tasks (pat, ms)))
    false
    (finished ++ map (fun t => mkGo (fst t) Finished) tasks)).
Proof.
  induction tasks as [|t tasks IH]; intros finished pat ms; [done|].
  cbn [Engine.in_order map fold_left]. rewrite exec_app.
  pose proof (run_one cs (length finished)
    (mkPool pat ms false
       (finished ++ mkGo (fst t) AtStart :: map (fun t => mkGo (fst t) AtStart) tasks))
    (fst t)) as Hone.
  cbn [v_pattern v_matches v_locked gs] in Hone.
  rewrite Hone; [|by apply list_lookup_middle|done]. clear Hone.
  rewrite insert_app_r_alt, Nat.sub_diag by done. cbn [insert list_insert].
  rewrite run_alone_pattern.
  rewrite (cons_middle _ finished), app_assoc.
  replace (S (length finished)) with (length (finished ++ [mkGo (fst t) Finished]))
    by (rewrite length_app; simpl; lia).
  rewrite IH.
  rewrite <- (run_alone_pattern cs (fst t) pat ms), <- surjective_pairing.
  by rewrite <- app_assoc.
Qed.

Lemma in_order_complete cs pattern tasks :
  exists p,
    exec cs (in_order cs pattern 0 tasks) (start pattern tasks) = Some p /\
    all_done p = true /\
    v_matches p =
      snd (fold_left (fun st t => run_alone cs (fst t) st) tasks (pattern, [])).
Proof.
  eexists. split; [apply (in_order_runs cs tasks [] pattern [])|]. split; [|done].
  unfold all_done. simpl. induction tasks; simpl; done.
Qed.
End Platform.

End InOrderFacts.

(** * The goroutines always finish *)

Module ProgressFacts.
Import Fs Engine Props.

Section Platform.
Variable ToLower : string -> string.
Variable Base : string -> string.
Variable Match : string -> string -> bool * option error.

Local Abbreviation step := (step ToLower Base Match).
Local Abbreviation exec := (exec ToLower Base Match).
Local Abbreviation inv := (inv ToLower Base Match).

Lemma work_split l1 g l2 :
  work (l1 ++ g :: l2) = work l1 + remaining g + work l2.
Proof. unfold work. rewrite map_app, list_sum_app. simpl. lia. Qed.

(** Every step uses up some of the work left. *)
Lemma step_work cs i p p' : step cs i p = Some p' -> work (gs p') < work (gs p).
Proof.
  unfold Engine.step. destruct (gs p !! i) as [g|] eqn:Hi; [|done].
  destruct (PoolFacts.insert_split _ _ _ Hi) as (l1 & l2 & Hl & Hins).
  assert (Hlt : forall c,
    remaining (mkGo (g_path g) c) < remaining g ->
    work (<[i:=mkGo (g_path g) c]> (gs p)) < work (gs p)).
  { intros c Hc. rewrite Hins, Hl, !work_split. lia. }
  unfold remaining in Hlt at 2.
  destruct (g_pc g); repeat case_match; intros [= <-]; try done;
    simpl; apply Hlt; unfold remaining; simpl; lia.
Qed.

(** So no run is longer than six steps per goroutine. *)
Lemma exec_bounded cs sched : forall p p',
  exec cs sched p = Some p' -> length sched + work (gs p') <= work (gs p).
Proof.
  induction sched as [|i sched IH]; simpl; intros p p'.
  { intros [= <-]. lia. }
  destruct (step cs i p) as [p1|] eqn:Hs; [|done].
  intros He. apply IH in He. apply step_work in Hs. lia.
Qed.

Lemma crit_pos l :
  0 < crit l -> exists i g, l !! i = Some g /\ in_critical g = true.
Proof.
  unfold crit. induction l as [|g l IH]; simpl; [lia|].
  rewrite filter_cons. destruct (in_critical g) eqn:Hg; simpl.
  - intros _. by exists 0, g.
  - intros Hpos. destruct (IH Hpos) as (i & g' & Hi & Hg'). by exists (S i), g'.
Qed.

Lemma not_all_done l :
  forallb is_finished l = false ->
  exists i g, l !! i = Some g /\ is_finished g = false.
Proof.
  induction l as [|g l IH]; simpl; [done|].
  destruct (is_finished g) eqn:Hg; simpl.
  - intros Hl. destruct (IH Hl) as (i & g' & Hi & Hg'). by exists (S i), g'.
  - intros _. by exists 0, g.
Qed.

(** While a goroutine is unfinished, some goroutine can take a step: the
    holder of the lock if it is taken, any unfinished one otherwise. *)
Lemma progress cs p0 p :
  inv cs p0 p -> all_done p = false -> exists i p', step cs i p = Some p'.
Proof.
  intros [_ _ _ Hlk] Hnd. unfold holders in Hlk. unfold Engine.step.
  destruct (v_locked p) eqn:Hlocked.
  - destruct (crit_pos (gs p)) as (i & g & Hi & Hg); [lia|].
    exists i. rewrite Hi. unfold in_critical in Hg.
    destruct (g_pc g); try done; eauto.
  - destruct (not_all_done _ Hnd) as (i & g & Hi & Hg).
    exists i. rewrite Hi. unfold is_finished in Hg.
    destruct (g_pc g); try done; try case_match; eauto.
Qed.

Section Idempotent.
Variable cs : bool.
Variable p0 : string.
Hypothesis lower_twice : ToLower (ToLower p0) = ToLower p0.

(** From every state a run reaches, the goroutines can all be run to
    their end: [wg.Wait()] is never left waiting. *)
Lemma completes_from : forall n p,
  work (gs p) <= n -> inv cs p0 p ->
  exists sched p', exec cs sched p = Some p' /\ all_done p' = true.
Proof using lower_twice.
  induction n as [|n IH]; intros p Hn Hinv.
  - exists [], p. split; [done|]. destruct (all_done p) eqn:Hd; [done|].
    destruct (progress _ _ _ Hinv Hd) as (i & p' & Hs). apply step_work in Hs. lia.
  - destruct (all_done p) eqn:Hd; [by exists [], p|].
    destruct (progress _ _ _ Hinv Hd) as (i & p1 & Hs).
    destruct (IH p1) as (sched & p' & He & Hd').
    + apply step_work in Hs. lia.
    + by eapply PoolFacts.step_inv.
    + exists (i :: sched), p'. simpl. by rewrite Hs.
Qed.

Lemma any_run_completes sched tasks p :
  exec cs sched (start p0 tasks) = Some p ->
  exists sched' p',
    exec cs (sched ++ sched') (start p0 tasks) = Some p' /\ all_done p' = true.
Proof using lower_twice.
  intros He.
  destruct (completes_from (work (gs p)) p) as (sched' & p' & He' & Hd); [done| |].
  - eapply PoolFacts.exec_inv; [done|apply PoolFacts.start_inv|done].
  - exists sched', p'. by rewrite InOrderFacts.exec_app, He.
Qed.
End Idempotent.
End Platform.

End ProgressFacts.

(** * Properties of the search engine *)

Module EngineFacts.
Import Fs Engine Props.

#[local] Arguments Props.folded : simpl never.
#[local] Arguments Props.name_matches : simpl never.

Section Platform.
Variable ToLower : string -> string.
Variable Base : string -> string.
Variable Join : string -> string -> string.
Variable Match : string -> string -> bool * option error.
Variable errno_text : Z -> string.

Local Abbreviation walkFn := (walkFn errno_text).
Local Abbreviation step := (step ToLower Base Match).
Local Abbreviation exec := (exec ToLower Base Match).
Local Abbreviation in_order := (in_order ToLower Base Match).
Local Abbreviation run_alone := (run_alone ToLower Base Match).
Local Abbreviation Search := (Search ToLower Base Join Match errno_text).
Local Abbreviation Search_under := (Search_under ToLower Base Join Match errno_text).
Local Abbreviation main := (main ToLower Base Join Match errno_text).
Local Abbreviation visits := (visits Join).
Local Abbreviation root_visits := (root_visits Join).
Local Abbreviation name_matches := (name_matches ToLower Base Match).
Local Abbreviation folded := (folded ToLower).
Local Abbreviation diagnostic := (diagnostic errno_text).
Local Abbreviation after_visits := (after_visits errno_text).
Local Abbreviation InTree := (InTree Join).

(** The callback returns nil on every call. *)
Lemma walkFn_nil fo do v s : snd (walkFn fo do v s) = None.
Proof.
  destruct v as [path d|path d e]; simpl.
  - destruct (fo && IsDir d); [done|]. by destruct (do && negb (IsDir d)).
  - by destruct (is_access_denied e).
Qed.

(** So the walk calls it on every entry, and returns nil. *)
Lemma walk_result fs root fo do :
  WalkDir Join fs root (walkFn fo do) walk_init =
  (after_visits fo do (root_visits fs root) walk_init, None).
Proof. apply WalkFacts.WalkDir_total, walkFn_nil. Qed.

(** The goroutines started are those of the entries the filter lets
    through. *)
Lemma spawned_after fo do vs : forall s path d,
  In (path, d) (spawned (after_visits fo do vs s)) <->
  In (path, d) (spawned s) \/ (In (Entry path d) vs /\ survives fo do d = true).
Proof using errno_text.
  clear ToLower Base Join Match.
  unfold Props.after_visits, survives.
  induction vs as [|v vs IH]; intros s path d; simpl; [tauto|].
  rewrite IH. destruct v as [p' d'|p' d' e]; simpl.
  - destruct (fo && IsDir d') eqn:E1; simpl.
    { split; [tauto|]. intros [Ha|[[Heq|Hin] Hs]]; [tauto| |tauto].
      injection Heq as -> ->. rewrite E1 in Hs. done. }
    destruct (do && negb (IsDir d')) eqn:E2; simpl.
    { split; [tauto|]. intros [Ha|[[Heq|Hin] Hs]]; [tauto| |tauto].
      injection Heq as -> ->. rewrite E1, E2 in Hs. done. }
    rewrite in_app_iff. simpl. split.
    + intros [[Ha|[Heq|[]]]|Hb]; [tauto| |tauto].
      injection Heq as -> ->. right. split; [by left|]. by rewrite E1, E2.
    + intros [Ha|[[Heq|Hin] Hs]]; [tauto| |tauto].
      injection Heq as -> ->. tauto.
  - destruct (is_access_denied e); simpl;
      (split; [tauto|]; intros [Ha|[[Heq|Hin] Hs]]; [tauto|done|tauto]).
Qed.

(** The lines printed are the diagnostics of the errors reported. *)
Lemma out_after fo do vs : forall s line,
  In line (out (after_visits fo do vs s)) <->
  In line (out s) \/
  exists path d e, In (Failure path d e) vs /\ line = diagnostic path e.
Proof using errno_text.
  clear ToLower Base Join Match.
  unfold Props.after_visits.
  induction vs as [|v vs IH]; intros s line; simpl.
  { split; [tauto|]. intros [Ha|(p & d & e & [] & _)]. done. }
  rewrite IH. destruct v as [p' d'|p' d' e]; simpl.
  - assert (Hout : out (fst (walkFn fo do (Entry p' d') s)) = out s).
    { simpl. destruct (fo && IsDir d'); [done|]. by destruct (do && negb (IsDir d')). }
    simpl in Hout. rewrite Hout. split.
    + intros [Ha|(p & d & e & Hin & Hl)]; [tauto|]. right. exists p, d, e. tauto.
    + intros [Ha|(p & d & e & [Heq|Hin] & Hl)]; [tauto|done|].
      right. exists p, d, e. tauto.
  - assert (Hout : out (fst (walkFn fo do (Failure p' d' e) s)) = out s ++ [diagnostic p' e]).
    { unfold Props.diagnostic. simpl. by destruct (is_access_denied e). }
    simpl in Hout. rewrite Hout, in_app_iff. simpl. split.
    + intros [[Ha|[<-|[]]]|(p & d & e0 & Hin & Hl)]; [tauto| |].
      * right. exists p', d', e. split; [by left|done].
      * right. exists p, d, e0. tauto.
    + intros [Ha|(p & d & e0 & [Heq|Hin] & ->)]; [tauto| |].
      * injection Heq as -> -> ->. tauto.
      * right. exists p, d, e0. tauto.
Qed.

(** A run of [Search] under a schedule, spelled out. *)
Lemma Search_under_inv sched fs root pattern fo do cs r :
  Search_under sched fs root pattern fo do cs = Some r ->
  exists p,
    exec cs sched (start pattern
      (spawned (after_visits fo do (root_visits fs root) walk_init))) = Some p /\
    all_done p = true /\
    r = mkResult (out (after_visits fo do (root_visits fs root) walk_init))
                 (v_matches p) None.
Proof.
  unfold Engine.Search_under. rewrite walk_result.
  destruct (exec cs sched _) as [p|] eqn:He; [|done].
  destruct (all_done p) eqn:Hd; [|done].
  intros [= <-]. by exists p.
Qed.

(** [Search] is the run under the in-order schedule: the search returns. *)
Lemma Search_in_order fs root pattern fo do cs :
  Search_under
    (in_order cs pattern 0
       (spawned (after_visits fo do (root_visits fs root) walk_init)))
    fs root pattern fo do cs
  = Some (Search fs root pattern fo do cs).
Proof.
  unfold Engine.Search_under, Engine.Search. rewrite walk_result.
  destruct (InOrderFacts.in_order_complete ToLower Base Match cs pattern
    (spawned (after_visits fo do (root_visits fs root) walk_init)))
    as (p & -> & -> & ->).
  by destruct (fold_left _ _ _).
Qed.

(** However far the goroutines have run, the search can still return. *)
Lemma Search_never_stuck sched fs root pattern fo do cs p :
  ToLower (ToLower pattern) = ToLower pattern ->
  exec cs sched (start pattern
    (spawned (after_visits fo do (root_visits fs root) walk_init))) = Some p ->
  exists sched' r,
    Search_under (sched ++ sched') fs root pattern fo do cs = Some r.
Proof.
  intros Hlow He.
  destruct (ProgressFacts.any_run_completes ToLower Base Match cs pattern Hlow _ _ _ He)
    as (sched' & p' & He' & Hd).
  exists sched'. unfold Engine.Search_under. rewrite walk_result, He', Hd. eauto.
Qed.

(** A path among the matches is the path of a goroutine, under any
    schedule. *)
Lemma step_matches i cs p p' :
  step cs i p = Some p' ->
  forall x, In x (v_matches p') -> In x (v_matches p) \/ In x (paths p).
Proof using ToLower Base Match.
  clear Join errno_text.
  unfold Engine.step, paths. destruct (gs p !! i) as [g|] eqn:Hi; [|done].
  assert (Hg : In (g_path g) (map g_path (gs p))).
  { apply in_map. apply list_elem_of_In. by eapply list_elem_of_lookup_2. }
  destruct (g_pc g); repeat case_match; intros [= <-] x; simpl; try tauto.
  rewrite in_app_iff. simpl. intros [Ha|[<-|[]]]; tauto.
Qed.

Lemma exec_matches cs sched : forall p p',
  exec cs sched p = Some p' ->
  forall x, In x (v_matches p') -> In x (v_matches p) \/ In x (paths p).
Proof using ToLower Base Match.
  clear Join errno_text.
  induction sched as [|i sched IH]; simpl; intros p p'.
  { intros [= <-]. tauto. }
  destruct (step cs i p) as [p1|] eqn:Hs; [|done].
  intros He x Hx. destruct (IH _ _ He x Hx) as [Ha|Ha].
  - by eapply step_matches.
  - right. by rewrite <- (PoolFacts.step_paths _ _ _ _ _ _ _ Hs).
Qed.

(** The matches of a complete run, by membership. *)
Lemma matches_iff sched fs root pattern fo do cs r :
  ToLower (ToLower pattern) = ToLower pattern ->
  Search_under sched fs root pattern fo do cs = Some r ->
  forall path,
    In path (matches r) <->
    name_matches cs pattern path = true /\
    exists d, In (Entry path d) (root_visits fs root) /\ survives fo do d = true.
Proof.
  intros Hlow (p & He & Hd & ->)%Search_under_inv path. simpl.
  pose proof (PoolFacts.complete_run ToLower Base Match cs pattern Hlow _ _ _ He Hd) as Hp.
  rewrite <- !list_elem_of_In, Hp, list_elem_of_In, filter_In, in_map_iff.
  split.
  - intros [((p', d) & <- & Hin) Hm]. split; [done|]. exists d.
    apply spawned_after in Hin as [[]|Hin]. done.
  - intros [Hm (d & Hin & Hs)]. split; [|done]. exists (path, d). split; [done|].
    apply spawned_after. by right.
Qed.

(** Every step that changes [matches] is the append of the goroutine that
    holds the lock, and it is the only goroutine between [mu.Lock()] and
    [mu.Unlock()]. *)
Lemma append_holds_lock cs p0 i p p' :
  inv ToLower Base Match cs p0 p ->
  step cs i p = Some p' ->
  v_matches p' <> v_matches p ->
  v_locked p = true /\ crit (gs p) = 1 /\
  exists g, gs p !! i = Some g /\ g_pc g = AtAppend /\
            v_matches p' = v_matches p ++ [g_path g].
Proof.
  intros [_ _ _ Hlk] Hstep Hne.
  assert (Happ : exists g, gs p !! i = Some g /\ g_pc g = AtAppend /\
                           v_matches p' = v_matches p ++ [g_path g]).
  { unfold Engine.step in Hstep. destruct (gs p !! i) as [g|] eqn:Hi; [|done].
    exists g. destruct (g_pc g) eqn:Hpc; repeat case_match;
      try discriminate Hstep; injection Hstep as <-; simpl in *; done. }
  destruct Happ as (g & Hi & Hpc & Hm).
  destruct (PoolFacts.insert_split _ _ _ Hi) as (l1 & l2 & Hl & _).
  unfold holders in Hlk. rewrite Hl, PoolFacts.crit_split in Hlk.
  unfold in_critical in Hlk. rewrite Hpc in Hlk.
  assert (Hc : crit (gs p) = 1 /\ v_locked p = true).
  { rewrite Hl, PoolFacts.crit_split. unfold in_critical. rewrite Hpc.
    destruct (v_locked p); [done|lia]. }
  destruct Hc as [Hc Hlocked]. split; [done|]. split; [done|]. by exists g.
Qed.

(** The root that cannot be read: one diagnostic, no goroutine. *)
Lemma missing_root_walk fs root fo do e :
  fs root = LstatFails e ->
  after_visits fo do (root_visits fs root) walk_init = mkWalk [diagnostic root e] [].
Proof.
  intros Hfs. unfold Props.root_visits, Props.after_visits, Props.diagnostic.
  rewrite Hfs. simpl. by destruct (is_access_denied e).
Qed.

Lemma missing_root_any_schedule sched fs root pattern fo do cs e r :
  fs root = LstatFails e ->
  Search_under sched fs root pattern fo do cs = Some r ->
  r = mkResult [diagnostic root e] [] None.
Proof.
  intros Hfs (p & He & _ & ->)%Search_under_inv.
  rewrite (missing_root_walk _ _ _ _ _ Hfs) in *. simpl in *.
  destruct sched as [|i sched]; simpl in He; [by injection He as <-|].
  unfold Engine.step in He. simpl in He. done.
Qed.

(** C1, as the code has it.  When the [Lstat] of the root fails, the
    traversal primitive hands the error to the callback, which prints the
    "Skipping" line for it and returns nil: [Search] returns no match and
    no error, under every schedule, and [main] prints that line and
    "No path matches the pattern", and leaves with code 0. *)
Theorem missing_root_is_skipped fs Args opts e :
  Cli.ParseFlags Args = Cli.ParseOk opts ->
  fs (Cli.directory opts) = LstatFails e ->
  Search fs (Cli.directory opts) (Cli.pattern opts) (Cli.isFileOnly opts)
    (Cli.isDirOnly opts) (Cli.isCaseSensitive opts)
  = mkResult [diagnostic (Cli.directory opts) e] [] None /\
  (forall sched r,
     Search_under sched fs (Cli.directory opts) (Cli.pattern opts)
       (Cli.isFileOnly opts) (Cli.isDirOnly opts) (Cli.isCaseSensitive opts) = Some r ->
     r = mkResult [diagnostic (Cli.directory opts) e] [] None) /\
  main fs Args =
    ([diagnostic (Cli.directory opts) e; "No path matches the pattern"], 0%Z).
Proof.
  intros Hparse Hfs.
  assert (HS : Search fs (Cli.directory opts) (Cli.pattern opts) (Cli.isFileOnly opts)
                 (Cli.isDirOnly opts) (Cli.isCaseSensitive opts)
               = mkResult [diagnostic (Cli.directory opts) e] [] None).
  { eapply missing_root_any_schedule; [exact Hfs|apply Search_in_order]. }
  split; [exact HS|]. split.
  - intros sched r. by apply missing_root_any_schedule.
  - unfold Engine.main. by rewrite Hparse, HS.
Qed.

(** C2.  Whatever read errors the tree holds, [Search] returns, and
    every run of it returns nil as its error, has printed the diagnostic
    of every directory whose read failed, and has among its matches every
    entry of the tree that passes the type filter and whose name
    matches: an error in one place hides no match anywhere else. *)
Theorem walk_errors_are_skipped fs root rootn pattern fo do cs :
  ToLower (ToLower pattern) = ToLower pattern ->
  fs root = LstatOk rootn ->
  (exists sched r, Search_under sched fs root pattern fo do cs = Some r) /\
  forall sched r,
    Search_under sched fs root pattern fo do cs = Some r ->
    err r = None /\
    (forall path name e dirs,
       InTree root rootn path (Dir name (Some e) dirs) ->
       In (diagnostic path e) (printed r)) /\
    (forall path m,
       InTree root rootn path m ->
       survives fo do (entry_of m) = true ->
       name_matches cs pattern path = true ->
       In path (matches r)).
Proof.
  intros Hlow Hfs. split.
  { eexists _, _. apply Search_in_order. }
  intros sched r Hr. pose proof (matches_iff _ _ _ _ _ _ _ _ Hlow Hr) as Hiff.
  destruct (Search_under_inv _ _ _ _ _ _ _ _ Hr) as (p & _ & _ & ->). simpl in *.
  split; [done|]. split.
  - intros path name e dirs Hin. apply out_after. right.
    eexists path, _, e. split; [|done].
    unfold Props.root_visits. rewrite Hfs. by apply WalkFacts.InTree_reported.
  - intros path m Hin Hs Hm. apply Hiff. split; [done|].
    exists (entry_of m). split; [|done].
    unfold Props.root_visits. rewrite Hfs. by apply WalkFacts.InTree_visited.
Qed.

(** C3.  The walk starts a goroutine for an entry of the tree exactly
    when the entry passes the type filter, wherever the entry lies: below
    a directory that the filter excluded, the entries are still visited
    and tested.  In file-only mode a directory is not tested and the
    files in it are. *)
Theorem type_filter_never_prunes fs root rootn fo do :
  fs root = LstatOk rootn ->
  (forall path m,
     InTree root rootn path m ->
     In (path, entry_of m)
        (spawned (fst (WalkDir Join fs root (walkFn fo do) walk_init)))
     <-> survives fo do (entry_of m) = true) /\
  (forall path name rd_err dirs c,
     fo = true -> do = false ->
     InTree root rootn path (Dir name rd_err dirs) ->
     In c dirs -> is_dir c = false ->
     ~ In (path, entry_of (Dir name rd_err dirs))
          (spawned (fst (WalkDir Join fs root (walkFn fo do) walk_init))) /\
     In (Join path (name_of c), entry_of c)
        (spawned (fst (WalkDir Join fs root (walkFn fo do) walk_init)))).
Proof using Join errno_text.
  clear ToLower Base Match.
  intros Hfs. rewrite walk_result. simpl.
  assert (Hall : forall path m,
     InTree root rootn path m ->
     In (path, entry_of m) (spawned (after_visits fo do (root_visits fs root) walk_init))
     <-> survives fo do (entry_of m) = true).
  { intros path m Hin. rewrite spawned_after. simpl. split.
    - intros [[]|[_ Hs]]. done.
    - intros Hs. right. split; [|done].
      unfold Props.root_visits. rewrite Hfs. by apply WalkFacts.InTree_visited. }
  split; [exact Hall|].
  intros path name rd_err dirs c -> -> Hdir Hc Hfile. split.
  - rewrite (Hall _ _ Hdir). done.
  - apply Hall; [by eapply InTree_child|].
    unfold survives, entry_of. simpl. by rewrite Hfile.
Qed.

(** C4.  In every run, an entry of the tree that passes the type filter
    is among the matches exactly when its base name, lower-cased unless
    the search is case-sensitive, matches the pattern, folded the same
    way; and the answer is the same for any path with the same base
    name. *)
Theorem match_iff_base_name sched fs root rootn pattern fo do cs r :
  ToLower (ToLower pattern) = ToLower pattern ->
  fs root = LstatOk rootn ->
  Search_under sched fs root pattern fo do cs = Some r ->
  forall path m,
    InTree root rootn path m ->
    survives fo do (entry_of m) = true ->
    (In path (matches r) <->
     accepted (Match (folded cs pattern) (folded cs (Base path))) = true) /\
    (forall other, Base other = Base path ->
       (In path (matches r) <-> name_matches cs pattern other = true)).
Proof.
  intros Hlow Hfs Hr path m Hin Hs.
  assert (Hiff : In path (matches r) <-> name_matches cs pattern path = true).
  { rewrite (matches_iff _ _ _ _ _ _ _ _ Hlow Hr). split; [tauto|].
    intros Hm. split; [done|]. exists (entry_of m). split; [|done].
    unfold Props.root_visits. rewrite Hfs. by apply WalkFacts.InTree_visited. }
  split; [exact Hiff|].
  intros other Hb. rewrite Hiff. unfold Props.name_matches. by rewrite Hb.
Qed.

(** C5.  When the glob matcher rejects the pattern on the name of an
    entry, the entry is not among the matches, and [Search] still returns
    nil as its error. *)
Theorem malformed_pattern_no_match sched fs root rootn pattern fo do cs r :
  ToLower (ToLower pattern) = ToLower pattern ->
  fs root = LstatOk rootn ->
  Search_under sched fs root pattern fo do cs = Some r ->
  err r = None /\
  forall path m e,
    InTree root rootn path m ->
    snd (Match (folded cs pattern) (folded cs (Base path))) = Some e ->
    ~ In path (matches r).
Proof.
  intros Hlow Hfs Hr. split.
  { by destruct (Search_under_inv _ _ _ _ _ _ _ _ Hr) as (p & _ & _ & ->). }
  intros path m e _ Hbad Hin.
  apply (matches_iff _ _ _ _ _ _ _ _ Hlow Hr) in Hin as [Hm _].
  unfold Props.name_matches in Hm.
  destruct (Match (folded cs pattern) (folded cs (Base path))) as [b [e'|]]; done.
Qed.

(** C10.  Every string among the matches is a path the traversal
    primitive passed to the callback, for an entry that passed the type
    filter: it is stored as received, and lower-casing touches only the
    copies compared. *)
Theorem stored_path_as_walked sched fs root pattern fo do cs r :
  Search_under sched fs root pattern fo do cs = Some r ->
  forall path,
    In path (matches r) ->
    exists d, In (Entry path d) (root_visits fs root) /\ survives fo do d = true.
Proof.
  intros (p & He & _ & ->)%Search_under_inv path Hin. simpl in Hin.
  destruct (exec_matches _ _ _ _ He _ Hin) as [[]|Hp].
  unfold paths, start in Hp. simpl in Hp. rewrite map_map in Hp. simpl in Hp.
  apply in_map_iff in Hp as ((path', d) & <- & Hsp).
  apply spawned_after in Hsp as [[]|Hsp]. by exists d.
Qed.

(** [main] prints the matches as [Search] returned them. *)
Lemma main_prints_matches fs Args opts :
  Cli.ParseFlags Args = Cli.ParseOk opts ->
  let r := Search fs (Cli.directory opts) (Cli.pattern opts) (Cli.isFileOnly opts)
             (Cli.isDirOnly opts) (Cli.isCaseSensitive opts) in
  err r = None -> matches r <> [] ->
  main fs Args = (printed r ++ "Found Paths:" :: matches r, 0%Z).
Proof.
  intros Hparse r Herr Hne. unfold Engine.main. rewrite Hparse. fold r.
  rewrite Herr. by destruct (matches r).
Qed.
End Platform.

End EngineFacts.

(** * The engine on the sample tree *)

Module SampleFacts.
Import Fs Engine Props Sample EngineFacts.

Local Abbreviation InTree_ref := (InTree RefPlatform.Join).

Ltac under_root :=
  match goal with
  | |- Fs.InTree _ _ _ _ ?c =>
      change (InTree_ref "root" tree (RefPlatform.Join "root" (name_of c)) c);
      eapply InTree_child; [apply InTree_root|simpl; auto 10]
  end.

Ltac under_sub :=
  match goal with
  | |- Fs.InTree _ _ _ _ ?c =>
      change (InTree_ref "root" tree (RefPlatform.Join "root\sub" (name_of c)) c);
      apply (InTree_child RefPlatform.Join "root" tree "root\sub" "sub" None [File "a.txt"] c);
        [under_root|simpl; auto 10]
  end.

(** C1 fails as stated: with a root that does not exist [Search] returns
    no error at all, and the process leaves with code 0 after printing
    "No path matches the pattern". *)
Lemma missing_root_not_an_error :
  disk "nosuch" = LstatFails (file_not_found "nosuch") /\
  err (Search_ref disk "nosuch" "*.txt" false false false) = None /\
  main_ref disk ["search"; "nosuch"; "*.txt"] =
    (["Skipping: CreateFile nosuch: The system cannot find the file specified. (Unhandle Error)";
      "No path matches the pattern"], 0%Z) /\
  ~ ((exists e, err (Search_ref disk "nosuch" "*.txt" false false false) = Some e) /\
     snd (main_ref disk ["search"; "nosuch"; "*.txt"]) = 1%Z).
Proof.
  split; [reflexivity|]. split; [reflexivity|]. split; [vm_compute; reflexivity|].
  intros [[e He] _]. vm_compute in He. discriminate He.
Qed.

Lemma missing_root_is_skipped_witness :
  Search_ref disk "nosuch" "*.txt" false false false =
    mkResult
      ["Skipping: CreateFile nosuch: The system cannot find the file specified. (Unhandle Error)"]
      [] None /\
  (forall sched r,
     Search_under_ref sched disk "nosuch" "*.txt" false false false = Some r ->
     r = mkResult
       ["Skipping: CreateFile nosuch: The system cannot find the file specified. (Unhandle Error)"]
       [] None) /\
  main_ref disk ["search"; "nosuch"; "*.txt"] =
    (["Skipping: CreateFile nosuch: The system cannot find the file specified. (Unhandle Error)";
      "No path matches the pattern"], 0%Z).
Proof.
  exact (missing_root_is_skipped RefPlatform.ToLower RefPlatform.Base RefPlatform.Join
           RefPlatform.Match RefPlatform.errno_text disk
           ["search"; "nosuch"; "*.txt"]
           (Cli.mkOptions false false false "nosuch" "*.txt")
           (file_not_found "nosuch") eq_refl eq_refl).
Defined.

Lemma walk_errors_are_skipped_witness :
  Search_under_ref interleaved disk "root" "A.TXT" false false false =
    Some (mkResult ["Skipping: root\locked (Access Denied)"]
                   ["root\sub\a.txt"; "root\a.txt"] None) /\
  In "Skipping: root\locked (Access Denied)" ["Skipping: root\locked (Access Denied)"] /\
  In "root\sub\a.txt" ["root\sub\a.txt"; "root\a.txt"].
Proof.
  assert (Hrun : Search_under_ref interleaved disk "root" "A.TXT" false false false =
    Some (mkResult ["Skipping: root\locked (Access Denied)"]
                   ["root\sub\a.txt"; "root\a.txt"] None)) by (vm_compute; reflexivity).
  split; [exact Hrun|].
  destruct (walk_errors_are_skipped RefPlatform.ToLower RefPlatform.Base
              RefPlatform.Join RefPlatform.Match RefPlatform.errno_text
              disk "root" tree "A.TXT" false false false eq_refl eq_refl)
    as [_ Hall].
  destruct (Hall interleaved _ Hrun) as (_ & Hprinted & Hfound).
  split.
  - apply (Hprinted "root\locked" "locked" (access_denied "root\locked") []).
    under_root.
  - apply (Hfound "root\sub\a.txt" (File "a.txt")); [|reflexivity|vm_compute; reflexivity].
    under_sub.
Defined.

Lemma type_filter_never_prunes_witness :
  ~ In ("root\sub", mkDirEntry "sub" true)
       (spawned (fst (WalkDir RefPlatform.Join disk "root"
                        (walkFn RefPlatform.errno_text true false) walk_init))) /\
  In ("root\sub\a.txt", mkDirEntry "a.txt" false)
     (spawned (fst (WalkDir RefPlatform.Join disk "root"
                      (walkFn RefPlatform.errno_text true false) walk_init))).
Proof.
  destruct (type_filter_never_prunes RefPlatform.Join RefPlatform.errno_text
              disk "root" tree true false eq_refl) as [_ Hfiles].
  apply (Hfiles "root\sub" "sub" None [File "a.txt"] (File "a.txt") eq_refl eq_refl);
    [|simpl; tauto|reflexivity].
  under_root.
Defined.

Lemma match_iff_base_name_witness :
  (In "root\sub\a.txt" ["root\sub\a.txt"; "root\a.txt"] <->
   accepted (RefPlatform.Match "a.txt" "a.txt") = true) /\
  (In "root\B.TXT" ["root\sub\a.txt"; "root\a.txt"] <->
   accepted (RefPlatform.Match "a.txt" "b.txt") = true).
Proof.
  assert (Hrun : Search_under_ref interleaved disk "root" "A.TXT" false false false =
    Some (mkResult ["Skipping: root\locked (Access Denied)"]
                   ["root\sub\a.txt"; "root\a.txt"] None)) by (vm_compute; reflexivity).
  pose proof (match_iff_base_name RefPlatform.ToLower RefPlatform.Base
                RefPlatform.Join RefPlatform.Match RefPlatform.errno_text
                interleaved disk "root" tree "A.TXT" false false false _
                eq_refl eq_refl Hrun) as Hiff.
  split.
  - refine (proj1 (Hiff "root\sub\a.txt" (File "a.txt") _ eq_refl)).
    under_sub.
  - refine (proj1 (Hiff "root\B.TXT" (File "B.TXT") _ eq_refl)).
    under_root.
Defined.

Lemma malformed_pattern_no_match_witness :
  RefPlatform.Match "[a-" "a.txt" = (false, Some ErrBadPattern) /\
  ~ In "root\a.txt"
       (matches (Search_ref disk "root" "[a-" false false false)) /\
  err (Search_ref disk "root" "[a-" false false false) = None.
Proof.
  split; [vm_compute; reflexivity|].
  destruct (malformed_pattern_no_match RefPlatform.ToLower RefPlatform.Base
              RefPlatform.Join RefPlatform.Match RefPlatform.errno_text
              _ disk "root" tree "[a-" false false false _ eq_refl eq_refl
              (Search_in_order RefPlatform.ToLower RefPlatform.Base RefPlatform.Join
                 RefPlatform.Match RefPlatform.errno_text
                 disk "root" "[a-" false false false))
    as [Herr Hno].
  split; [|exact Herr].
  apply (Hno "root\a.txt" (File "a.txt") ErrBadPattern); [|vm_compute; reflexivity].
  under_root.
Defined.

Lemma stored_path_as_walked_witness :
  Search_under_ref round_robin disk "root" "b.txt" false false false =
    Some (mkResult ["Skipping: root\locked (Access Denied)"] ["root\B.TXT"] None) /\
  exists d,
    In (Entry "root\B.TXT" d) (root_visits RefPlatform.Join disk "root") /\
    survives false false d = true.
Proof.
  assert (Hrun : Search_under_ref round_robin disk "root" "b.txt" false false false =
    Some (mkResult ["Skipping: root\locked (Access Denied)"] ["root\B.TXT"] None)).
  2: { split; [exact Hrun|].
       apply (stored_path_as_walked RefPlatform.ToLower RefPlatform.Base
                RefPlatform.Join RefPlatform.Match RefPlatform.errno_text
                round_robin disk "root" "b.txt" false false false _ Hrun).
       simpl. tauto. }
  vm_compute. reflexivity.
Defined.

(** C8: a matcher goroutine of a case-insensitive search assigns to the
    [pattern] variable that all goroutines share, and it does so without
    holding [mu]: after the first two steps of the only goroutine the
    variable has changed and the lock has never been taken. *)
Theorem pattern_written_outside_lock :
  let p := start "A.TXT" [("root\a.txt", mkDirEntry "a.txt" false)] in
  exists p1 p2,
    step RefPlatform.ToLower RefPlatform.Base RefPlatform.Match false 0 p = Some p1 /\
    step RefPlatform.ToLower RefPlatform.Base RefPlatform.Match false 0 p1 = Some p2 /\
    v_locked p = false /\ v_locked p1 = false /\ v_locked p2 = false /\
    v_pattern p1 = "A.TXT" /\ v_pattern p2 = "a.txt" /\
    v_matches p2 = v_matches p.
Proof.
  simpl. eexists _, _. split; [reflexivity|]. split; [reflexivity|].
  repeat split.
Qed.

End SampleFacts.

(** * More on the argument resolver *)

Module CliExtra.
Import Cli Props CliFacts.

(** X1.  A help request anywhere in the argument vector wins over
    everything else: the help text is printed and the process ends with
    code 0, whatever the other tokens are. *)
Theorem help_request_wins program (args : list string) :
  has_flag is_help_flag args = true ->
  ParseFlags (program :: args) = ParseExit (displayHelp program) 0.
Proof. intros Hh. by rewrite ParseFlags_unfold, Hh. Qed.

Lemma help_request_wins_witness :
  ParseFlags ["search"; "root"; "-f"; "-d"; "a"; "b"; "--help"; "c"] =
    ParseExit (displayHelp "search") 0.
Proof.
  apply (help_request_wins "search" ["root"; "-f"; "-d"; "a"; "b"; "--help"; "c"]).
  reflexivity.
Defined.

(** X2.  Options that [ParseFlags] returns are well formed: the vector
    held no help request and exactly two positional tokens, which are the
    directory and the pattern in that order; each toggle is set exactly
    when one of its spellings occurs; and the file-only and the
    directory-only toggle are never both set. *)
Theorem resolved_options_sound (Args : list string) o :
  ParseFlags Args = ParseOk o ->
  exists program args,
    Args = program :: args /\
    has_flag is_help_flag args = false /\
    positionals args = [directory o; pattern o] /\
    isFileOnly o = has_flag is_file_flag args /\
    isDirOnly o = has_flag is_dir_flag args /\
    isCaseSensitive o = has_flag is_case_flag args /\
    isFileOnly o && isDirOnly o = false.
Proof.
  destruct Args as [|program args]; [done|].
  rewrite ParseFlags_unfold. intros H. exists program, args. split; [done|].
  destruct (has_flag is_help_flag args); [done|]. split; [done|].
  destruct (positionals args) as [|d [|p [|x l]]]; try done.
  destruct (has_flag is_file_flag args && has_flag is_dir_flag args) eqn:Hboth; [done|].
  injection H as <-. simpl. by rewrite Hboth.
Qed.

Lemma resolved_options_sound_witness :
  exists program args,
    ["search"; "-c"; "root"; "--dir"; "*.go"] = program :: args /\
    has_flag is_help_flag args = false /\
    positionals args = ["root"; "*.go"] /\
    false = has_flag is_file_flag args /\
    true = has_flag is_dir_flag args /\
    true = has_flag is_case_flag args /\
    false && true = false.
Proof.
  apply (resolved_options_sound ["search"; "-c"; "root"; "--dir"; "*.go"]
           (mkOptions false true true "root" "*.go")).
  reflexivity.
Defined.

Lemma has_flag_app f l1 l2 : has_flag f (l1 ++ l2) = has_flag f l1 || has_flag f l2.
Proof. apply existsb_app. Qed.

Lemma has_flag_In f a l : In a l -> f a = true -> has_flag f l = true.
Proof. intros Hin Hf. apply existsb_exists. by exists a. Qed.

Lemma has_flag_repeated f a l1 l2 :
  In a (l1 ++ l2) -> has_flag f (l1 ++ a :: l2) = has_flag f (l1 ++ l2).
Proof.
  intros Hin. rewrite !has_flag_app. simpl. destruct (f a) eqn:Hf; [|done].
  rewrite <- has_flag_app, (has_flag_In f a _ Hin Hf).
  by rewrite orb_true_r.
Qed.

(** X3.  Flags are repeatable: writing a flag once more, anywhere in the
    vector, changes nothing in what [ParseFlags] does. *)
Theorem repeated_flag_is_noop program (l1 l2 : list string) a :
  is_positional a = false ->
  In a (l1 ++ l2) ->
  ParseFlags (program :: l1 ++ a :: l2) = ParseFlags (program :: l1 ++ l2).
Proof.
  intros Hflag Hin. rewrite !ParseFlags_unfold, !has_flag_repeated by done.
  unfold positionals. rewrite !List.filter_app. simpl. by rewrite Hflag.
Qed.

Lemma repeated_flag_is_noop_witness :
  ParseFlags ["search"; "-f"; "root"; "-f"; "*.go"] =
  ParseFlags ["search"; "-f"; "root"; "*.go"].
Proof.
  apply (repeated_flag_is_noop "search" ["-f"; "root"] ["*.go"] "-f").
  - reflexivity.
  - simpl. auto.
Defined.

Lemma canonical_class a :
  is_file_flag (canonical a) = is_file_flag a /\
  is_dir_flag (canonical a) = is_dir_flag a /\
  is_case_flag (canonical a) = is_case_flag a /\
  is_help_flag (canonical a) = is_help_flag a.
Proof.
  unfold canonical, is_file_flag, is_dir_flag, is_case_flag, is_help_flag.
  destruct (String.eqb_spec a "--file") as [->|H1]; [done|].
  destruct (String.eqb_spec a "--dir") as [->|H2]; [done|].
  destruct (String.eqb_spec a "--casesensitive") as [->|H3]; [done|].
  destruct (String.eqb_spec a "--help") as [->|H4]; [done|].
  apply String.eqb_neq in H1, H2, H3, H4. by rewrite ?H1, ?H2, ?H3, ?H4.
Qed.

Lemma canonical_positional a : is_positional a = true -> canonical a = a.
Proof.
  unfold is_positional, is_file_flag, is_dir_flag, is_case_flag, is_help_flag, canonical.
  destruct (String.eqb_spec a "--file") as [->|H1]; [done|].
  destruct (String.eqb_spec a "--dir") as [->|H2]; [done|].
  destruct (String.eqb_spec a "--casesensitive") as [->|H3]; [done|].
  destruct (String.eqb_spec a "--help") as [->|H4]; [done|].
  apply String.eqb_neq in H1, H2, H3, H4. by rewrite ?H1, ?H2, ?H3, ?H4.
Qed.

Lemma has_flag_canonical args :
  has_flag is_file_flag (map canonical args) = has_flag is_file_flag args /\
  has_flag is_dir_flag (map canonical args) = has_flag is_dir_flag args /\
  has_flag is_case_flag (map canonical args) = has_flag is_case_flag args /\
  has_flag is_help_flag (map canonical args) = has_flag is_help_flag args.
Proof.
  unfold has_flag. induction args as [|a args (IH1 & IH2 & IH3 & IH4)]; simpl; [done|].
  destruct (canonical_class a) as (-> & -> & -> & ->).
  by rewrite IH1, IH2, IH3, IH4.
Qed.

Lemma positionals_canonical args :
  positionals (map canonical args) = positionals args.
Proof.
  unfold positionals. induction args as [|a args IH]; simpl; [done|].
  assert (Hp : is_positional (canonical a) = is_positional a).
  { unfold is_positional. by destruct (canonical_class a) as (-> & -> & -> & ->). }
  rewrite Hp, IH. destruct (is_positional a) eqn:Ha; [|done].
  by rewrite canonical_positional.
Qed.

(** X4.  The long spelling of a flag does what the short one does:
    replacing every [--file], [--dir], [--casesensitive] and [--help] by
    [-f], [-d], [-c] and [-h] leaves the outcome of [ParseFlags] as it
    is. *)
Theorem long_and_short_forms_agree program (args : list string) :
  ParseFlags (program :: map canonical args) = ParseFlags (program :: args).
Proof.
  rewrite !ParseFlags_unfold, positionals_canonical.
  by destruct (has_flag_canonical args) as (-> & -> & -> & ->).
Qed.

(** X5.  The program name is used for the help text only: without a
    help request, two vectors that differ in the program name alone give
    the same options or the same error. *)
Theorem program_name_only_in_help p1 p2 (args : list string) :
  has_flag is_help_flag args = false ->
  ParseFlags (p1 :: args) = ParseFlags (p2 :: args).
Proof. intros Hh. by rewrite !ParseFlags_unfold, Hh. Qed.

Lemma program_name_only_in_help_witness :
  ParseFlags ["search"; "root"; "*.go"; "-c"] =
  ParseFlags ["C:\\bin\\go-search.exe"; "root"; "*.go"; "-c"].
Proof.
  apply (program_name_only_in_help "search" "C:\\bin\\go-search.exe" ["root"; "*.go"; "-c"]).
  reflexivity.
Defined.

End CliExtra.

(** * More on the goroutine pool *)

Module PoolExtra.
Import Fs Engine Props.

Section Platform.
Variable ToLower : string -> string.
Variable Base : string -> string.
Variable Match : string -> string -> bool * option error.

Local Abbreviation step := (step ToLower Base Match).
Local Abbreviation exec := (exec ToLower Base Match).

Lemma start_lock pattern tasks : lock_ok (start pattern tasks).
Proof.
  unfold lock_ok, crit. simpl. induction tasks as [|t tasks IH]; simpl; [done|].
  by rewrite filter_cons.
Qed.

Lemma step_lock cs i p p' : lock_ok p -> step cs i p = Some p' -> lock_ok p'.
Proof.
  unfold lock_ok, Engine.step. intros Hlk.
  destruct (gs p !! i) as [g|] eqn:Hi; [|done].
  destruct (PoolFacts.insert_split _ _ _ Hi) as (l1 & l2 & Hl & Hins).
  rewrite Hl, PoolFacts.crit_split in Hlk. unfold in_critical in Hlk.
  destruct (g_pc g); repeat case_match; intros [= <-]; try done;
    simpl; rewrite Hins, PoolFacts.crit_split; simpl;
    destruct (v_locked p); simpl in *; try done; lia.
Qed.

Lemma exec_lock cs sched : forall p p',
  lock_ok p -> exec cs sched p = Some p' -> lock_ok p'.
Proof.
  induction sched as [|i sched IH]; simpl; intros p p' Hlk.
  - by intros [= <-].
  - destruct (step cs i p) as [p1|] eqn:Hs; [|done].
    apply IH. by eapply step_lock.
Qed.

(** X17.  Mutual exclusion: at every point of every run at most one
    goroutine is between [mu.Lock()] and [mu.Unlock()], and there is one
    exactly when the lock is taken. *)
Theorem mutual_exclusion cs sched pattern tasks p :
  exec cs sched (start pattern tasks) = Some p ->
  crit (gs p) <= 1 /\ (v_locked p = true <-> crit (gs p) = 1).
Proof.
  intros He. pose proof (exec_lock _ _ _ _ (start_lock pattern tasks) He) as Hlk.
  unfold lock_ok in Hlk. rewrite Hlk. destruct (v_locked p); split; try lia; done.
Qed.

(** X18.  At every point of every run, a step either leaves [matches]
    as it is or appends the path of the goroutine that takes it, and in
    the second case that goroutine holds the lock, before the step and
    after it, and no other goroutine is between [mu.Lock()] and
    [mu.Unlock()]. *)
Theorem matches_change_by_locked_append cs sched pattern tasks p i p' :
  exec cs sched (start pattern tasks) = Some p ->
  step cs i p = Some p' ->
  v_matches p' = v_matches p \/
  (exists g, gs p !! i = Some g /\ g_pc g = AtAppend /\
             v_matches p' = v_matches p ++ [g_path g]) /\
  v_locked p = true /\ v_locked p' = true /\ crit (gs p) = 1.
Proof.
  intros He Hs. pose proof (exec_lock _ _ _ _ (start_lock pattern tasks) He) as Hlk.
  pose proof (step_lock _ _ _ _ Hlk Hs) as Hlk'.
  unfold lock_ok in Hlk, Hlk'. unfold Engine.step in Hs.
  destruct (gs p !! i) as [g|] eqn:Hi; [|done].
  destruct (PoolFacts.insert_split _ _ _ Hi) as (l1 & l2 & Hl & Hins).
  assert (Hcase : v_matches p' = v_matches p \/
    (g_pc g = AtAppend /\ v_matches p' = v_matches p ++ [g_path g] /\
     v_locked p' = v_locked p)).
  { destruct (g_pc g); repeat case_match; try discriminate Hs;
      injection Hs as <-; simpl; auto. }
  destruct Hcase as [Hsame|(Hpc & Happ & Hlocked')]; [by left|right].
  split; [by exists g|].
  rewrite Hl, PoolFacts.crit_split in Hlk. unfold in_critical in Hlk.
  rewrite Hpc in Hlk.
  assert (Hlocked : v_locked p = true) by (destruct (v_locked p); [done|lia]).
  rewrite Hlocked', Hlocked. split; [done|]. split; [done|].
  rewrite Hl, PoolFacts.crit_split. unfold in_critical. rewrite Hpc.
  rewrite Hlocked in Hlk. exact Hlk.
Qed.

Lemma start_work pattern tasks : work (gs (start pattern tasks)) = 6 * length tasks.
Proof.
  induction tasks as [|t tasks IH]; [done|].
  change (work (gs (start pattern (t :: tasks))))
    with (6 + work (gs (start pattern tasks))).
  rewrite IH. simpl length. lia.
Qed.

(** No run is longer than six steps for each goroutine. *)
Lemma runs_are_bounded cs sched pattern tasks p :
  exec cs sched (start pattern tasks) = Some p ->
  length sched <= 6 * length tasks.
Proof.
  intros He. apply ProgressFacts.exec_bounded in He.
  rewrite start_work in He. lia.
Qed.

Lemma progress_lock cs p :
  lock_ok p -> all_done p = false -> exists i p', step cs i p = Some p'.
Proof.
  unfold lock_ok. intros Hlk Hnd. unfold Engine.step.
  destruct (v_locked p) eqn:Hlocked.
  - destruct (ProgressFacts.crit_pos (gs p)) as (i & g & Hi & Hg); [lia|].
    exists i. rewrite Hi. unfold in_critical in Hg.
    destruct (g_pc g); try done; eauto.
  - destruct (ProgressFacts.not_all_done _ Hnd) as (i & g & Hi & Hg).
    exists i. rewrite Hi. unfold is_finished in Hg.
    destruct (g_pc g); try done; try case_match; eauto.
Qed.

Lemma finishes_from cs : forall n p,
  work (gs p) <= n -> lock_ok p ->
  exists sched p', exec cs sched p = Some p' /\ all_done p' = true.
Proof.
  induction n as [|n IH]; intros p Hn Hlk.
  - exists [], p. split; [done|]. destruct (all_done p) eqn:Hd; [done|].
    destruct (progress_lock cs _ Hlk Hd) as (i & p' & Hs).
    apply ProgressFacts.step_work in Hs. lia.
  - destruct (all_done p) eqn:Hd; [by exists [], p|].
    destruct (progress_lock cs _ Hlk Hd) as (i & p1 & Hs).
    destruct (IH p1) as (sched & p' & He & Hd').
    + apply ProgressFacts.step_work in Hs. lia.
    + by eapply step_lock.
    + exists (i :: sched), p'. simpl. by rewrite Hs.
Qed.

(** However far the goroutines have run, the run can be continued until
    every goroutine has finished. *)
Lemma no_deadlock cs sched pattern tasks p :
  exec cs sched (start pattern tasks) = Some p ->
  exists sched' p',
    exec cs (sched ++ sched') (start pattern tasks) = Some p' /\
    all_done p' = true.
Proof.
  intros He.
  destruct (finishes_from cs (work (gs p)) p) as (sched' & p' & He' & Hd); [done| |].
  - by eapply exec_lock; [apply start_lock|].
  - exists sched', p'. by rewrite InOrderFacts.exec_app, He.
Qed.

(** X19.  [wg.Wait()] is always released: whatever the library functions
    compute and however the goroutines are scheduled, a run cannot go on
    for ever (its length is bounded by the number of goroutines), and
    from every point it reaches it can be continued until every
    goroutine has finished; the lock never leaves a goroutine stuck. *)
Theorem wait_group_is_released cs sched pattern tasks p :
  exec cs sched (start pattern tasks) = Some p ->
  length sched <= 6 * length tasks /\
  exists sched' p',
    exec cs (sched ++ sched') (start pattern tasks) = Some p' /\
    all_done p' = true.
Proof.
  intros He. split; [exact (runs_are_bounded _ _ _ _ _ He)|exact (no_deadlock _ _ _ _ _ He)].
Qed.

Lemma step_never_stores i p p' :
  forallb never_stores (gs p) = true ->
  step true i p = Some p' ->
  v_pattern p' = v_pattern p /\ forallb never_stores (gs p') = true.
Proof.
  unfold Engine.step. intros Hns.
  destruct (gs p !! i) as [g|] eqn:Hi; [|done].
  destruct (PoolFacts.insert_split _ _ _ Hi) as (l1 & l2 & Hl & Hins).
  rewrite Hl, forallb_app in Hns. simpl in Hns.
  apply andb_prop in Hns as [H1 [Hg H2]%andb_prop].
  unfold never_stores in Hg.
  destruct (g_pc g); repeat case_match; intros [= <-]; try done;
    simpl; (split; [done|]); rewrite Hins, forallb_app; simpl;
    by rewrite H1, H2.
Qed.

(** X20.  A case-sensitive search never assigns to the pattern variable
    its goroutines share: at every point of every run the variable holds
    the pattern [Search] was called with. *)
Theorem case_sensitive_keeps_pattern sched pattern tasks p :
  exec true sched (start pattern tasks) = Some p ->
  v_pattern p = pattern.
Proof.
  assert (Hgen : forall sched p0 p,
    forallb never_stores (gs p0) = true ->
    exec true sched p0 = Some p -> v_pattern p = v_pattern p0).
  { clear. induction sched as [|i sched IH]; simpl; intros p0 p Hns.
    - by intros [= <-].
    - destruct (step true i p0) as [p1|] eqn:Hs; [|done].
      destruct (step_never_stores _ _ _ Hns Hs) as [Hp Hns1].
      intros He. rewrite <- Hp. by apply IH. }
  intros He. apply Hgen in He; [done|].
  simpl. clear. induction tasks; simpl; done.
Qed.
End Platform.

End PoolExtra.

(** * More on the search engine *)

Module EngineExtra.
Import Fs Engine Props EngineFacts.

#[local] Arguments Props.folded : simpl never.
#[local] Arguments Props.name_matches : simpl never.

Section Platform.
Variable ToLower : string -> string.
Variable Base : string -> string.
Variable Join : string -> string -> string.
Variable Match : string -> string -> bool * option error.
Variable errno_text : Z -> string.

Local Abbreviation walkFn := (walkFn errno_text).
Local Abbreviation exec := (exec ToLower Base Match).
Local Abbreviation Search := (Search ToLower Base Join Match errno_text).
Local Abbreviation Search_under := (Search_under ToLower Base Join Match errno_text).
Local Abbreviation main := (main ToLower Base Join Match errno_text).
Local Abbreviation root_visits := (root_visits Join).
Local Abbreviation name_matches := (name_matches ToLower Base Match).
Local Abbreviation after_visits := (after_visits errno_text).
Local Abbreviation reported := (reported errno_text).

(** The lines printed by the walk, exactly. *)
Lemma out_after_eq fo do vs : forall s,
  out (after_visits fo do vs s) = out s ++ reported vs.
Proof using errno_text.
  clear ToLower Base Join Match.
  unfold Props.after_visits.
  induction vs as [|v vs IH]; intros s; simpl; [by rewrite app_nil_r|].
  rewrite IH. destruct v as [path d|path d e]; simpl.
  - destruct (fo && IsDir d); [done|]. by destruct (do && negb (IsDir d)).
  - unfold Props.diagnostic. destruct (is_access_denied e); simpl;
      by rewrite <- app_assoc.
Qed.

(** The goroutines started by the walk, exactly and in their order. *)
Lemma spawned_after_eq fo do vs : forall s,
  spawned (after_visits fo do vs s) = spawned s ++ tested fo do vs.
Proof using errno_text.
  clear ToLower Base Join Match.
  unfold Props.after_visits.
  induction vs as [|v vs IH]; intros s; simpl; [by rewrite app_nil_r|].
  rewrite IH. destruct v as [path d|path d e]; simpl.
  - unfold survives. destruct (fo && IsDir d); simpl; [done|].
    destruct (do && negb (IsDir d)); simpl; [done|]. by rewrite <- app_assoc.
  - by destruct (is_access_denied e).
Qed.

(** What a run of [Search] returns, but for the order of the matches. *)
Lemma Search_under_result sched fs root pattern fo do cs r :
  Search_under sched fs root pattern fo do cs = Some r ->
  printed r = reported (root_visits fs root) /\ err r = None /\
  exists p,
    exec cs sched (start pattern (tested fo do (root_visits fs root))) = Some p /\
    all_done p = true /\ matches r = v_matches p.
Proof.
  intros (p & He & Hd & ->)%Search_under_inv. simpl.
  rewrite out_after_eq. rewrite spawned_after_eq in He. simpl in *.
  repeat split; try done. by exists p.
Qed.

(** X6.  [Search] never returns an error: whatever the tree, the root,
    the pattern and the flags, and however its goroutines are scheduled,
    its second result is nil. *)
Theorem search_error_is_nil fs root pattern fo do cs :
  err (Search fs root pattern fo do cs) = None /\
  forall sched r,
    Search_under sched fs root pattern fo do cs = Some r -> err r = None.
Proof.
  assert (Hall : forall sched r,
    Search_under sched fs root pattern fo do cs = Some r -> err r = None).
  { intros sched r Hr. by destruct (Search_under_result _ _ _ _ _ _ _ _ Hr) as (_ & ? & _). }
  split; [|exact Hall]. eapply Hall, Search_in_order.
Qed.

(** X7.  The lines [Search] prints are the diagnostics of the errors the
    traversal reported, one line for each error, in the order of the
    traversal; they depend on the tree only, not on the pattern, the
    flags or the schedule. *)
Theorem diagnostics_in_walk_order fs root pattern fo do cs :
  printed (Search fs root pattern fo do cs) = reported (root_visits fs root) /\
  forall sched r,
    Search_under sched fs root pattern fo do cs = Some r ->
    printed r = reported (root_visits fs root).
Proof.
  assert (Hall : forall sched r,
    Search_under sched fs root pattern fo do cs = Some r ->
    printed r = reported (root_visits fs root)).
  { intros sched r Hr. by destruct (Search_under_result _ _ _ _ _ _ _ _ Hr) as (? & _). }
  split; [|exact Hall]. eapply Hall, Search_in_order.
Qed.

(** The matches of a run, up to their order. *)
Lemma matches_of_run sched fs root pattern fo do cs r :
  ToLower (ToLower pattern) = ToLower pattern ->
  Search_under sched fs root pattern fo do cs = Some r ->
  matches r ≡ₚ
  List.filter (name_matches cs pattern)
              (map fst (tested fo do (root_visits fs root))).
Proof.
  intros Hlow Hr.
  destruct (Search_under_result _ _ _ _ _ _ _ _ Hr) as (_ & _ & p & He & Hd & ->).
  by eapply PoolFacts.complete_run.
Qed.

(** X8.  The schedule decides the order of the matches and nothing
    else: two runs of the same search print the same lines, return the
    same error and return the same matches up to their order. *)
Theorem runs_agree sched1 sched2 fs root pattern fo do cs r1 r2 :
  ToLower (ToLower pattern) = ToLower pattern ->
  Search_under sched1 fs root pattern fo do cs = Some r1 ->
  Search_under sched2 fs root pattern fo do cs = Some r2 ->
  printed r1 = printed r2 /\ err r1 = err r2 /\ matches r1 ≡ₚ matches r2.
Proof.
  intros Hlow H1 H2.
  pose proof (matches_of_run _ _ _ _ _ _ _ _ Hlow H1) as M1.
  pose proof (matches_of_run _ _ _ _ _ _ _ _ Hlow H2) as M2.
  destruct (Search_under_result _ _ _ _ _ _ _ _ H1) as (-> & -> & _).
  destruct (Search_under_result _ _ _ _ _ _ _ _ H2) as (-> & -> & _).
  split; [done|]. split; [done|]. by rewrite M1, M2.
Qed.

(** X9.  [Search] called with both the file-only and the directory-only
    flag tests no entry at all and returns no match. *)
Theorem both_filters_match_nothing sched fs root pattern cs r :
  Search_under sched fs root pattern true true cs = Some r ->
  matches r = [].
Proof.
  intros Hr. destruct (matches r) as [|path l] eqn:Hm; [done|].
  destruct (stored_path_as_walked _ _ _ _ _ _ _ _ _ _ _ _ _ Hr path) as (d & _ & Hs).
  - rewrite Hm. by left.
  - unfold survives in Hs. by destruct (IsDir d).
Qed.

(** X10.  The type filters hold for the results: every match of a
    file-only search is the path of an entry that is not a directory, and
    every match of a directory-only search is the path of a directory. *)
Theorem matches_have_the_type sched fs root pattern fo do cs r :
  Search_under sched fs root pattern fo do cs = Some r ->
  forall path,
    In path (matches r) ->
    exists d,
      In (Entry path d) (root_visits fs root) /\
      (fo = true -> IsDir d = false) /\
      (do = true -> IsDir d = true).
Proof.
  intros Hr path Hin.
  destruct (stored_path_as_walked _ _ _ _ _ _ _ _ _ _ _ _ _ Hr path Hin) as (d & Hv & Hs).
  exists d. split; [done|]. unfold survives in Hs.
  split; intros ->; destruct (IsDir d); simpl in Hs; try done.
  by destruct fo.
Qed.

(** X11.  The two type filters split the results of the unfiltered
    search: a path is a match of the unfiltered search exactly when it is
    a match of the file-only search or of the directory-only search. *)
Theorem filters_partition_matches s0 s1 s2 fs root pattern cs r rf rd :
  ToLower (ToLower pattern) = ToLower pattern ->
  Search_under s0 fs root pattern false false cs = Some r ->
  Search_under s1 fs root pattern true false cs = Some rf ->
  Search_under s2 fs root pattern false true cs = Some rd ->
  forall path,
    In path (matches r) <-> In path (matches rf) \/ In path (matches rd).
Proof.
  intros Hlow H0 H1 H2 path.
  rewrite (matches_iff _ _ _ _ _ _ _ _ _ _ _ _ _ Hlow H0),
          (matches_iff _ _ _ _ _ _ _ _ _ _ _ _ _ Hlow H1),
          (matches_iff _ _ _ _ _ _ _ _ _ _ _ _ _ Hlow H2).
  unfold survives. simpl. split.
  - intros [Hm (d & Hv & _)]. destruct (IsDir d) eqn:Hd.
    + right. split; [done|]. exists d. by rewrite Hd.
    + left. split; [done|]. exists d. by rewrite Hd.
  - intros [[Hm (d & Hv & _)]|[Hm (d & Hv & _)]]; (split; [done|]); by exists d.
Qed.

(** X12.  In a case-insensitive search the case of the pattern does not
    matter: the pattern and its lower-cased form give the same matches,
    up to their order. *)
Theorem pattern_case_is_irrelevant s1 s2 fs root pattern fo do r1 r2 :
  ToLower (ToLower pattern) = ToLower pattern ->
  Search_under s1 fs root pattern fo do false = Some r1 ->
  Search_under s2 fs root (ToLower pattern) fo do false = Some r2 ->
  matches r1 ≡ₚ matches r2.
Proof.
  intros Hlow H1 H2.
  rewrite (matches_of_run _ _ _ _ _ _ _ _ Hlow H1).
  rewrite (matches_of_run _ _ _ _ _ _ _ _ (f_equal ToLower Hlow) H2).
  erewrite filter_ext; [done|].
  intros path. unfold Props.name_matches, Props.folded. by rewrite Hlow.
Qed.

(** X13.  When the root is a file, or a directory from which no entry
    is read, the root itself is the only candidate: the result is the
    root path alone if the root passes the type filter and its base name
    matches, and is empty otherwise. *)
Theorem lone_root_is_the_only_candidate sched fs root n pattern fo do cs r :
  ToLower (ToLower pattern) = ToLower pattern ->
  fs root = LstatOk n ->
  no_entries n = true ->
  Search_under sched fs root pattern fo do cs = Some r ->
  matches r =
    if survives fo do (entry_of n) && name_matches cs pattern root
    then [root] else [].
Proof.
  intros Hlow Hfs Hleaf Hr.
  pose proof (matches_of_run _ _ _ _ _ _ _ _ Hlow Hr) as Hm.
  unfold Props.root_visits in Hm. rewrite Hfs in Hm.
  assert (Ht : tested fo do (visits Join root n) =
               if survives fo do (entry_of n) then [(root, entry_of n)] else []).
  { destruct n as [name|name rd_err [|c dirs]]; [| |done].
    - simpl. by destruct (survives fo do _).
    - simpl. destruct (survives fo do _); by destruct rd_err. }
  rewrite Ht in Hm.
  destruct (survives fo do (entry_of n)); simpl in *.
  - destruct (name_matches cs pattern root).
    + by apply Permutation_singleton_r.
    + by apply Permutation_nil_r.
  - by apply Permutation_nil_r.
Qed.

Lemma tested_sub fo do vs :
  NoDup (entry_paths vs) -> NoDup (map fst (tested fo do vs)).
Proof using.
  unfold entry_paths. induction vs as [|[path d|path d e] vs IH]; simpl; [done| |done].
  assert (Hsub : forall x, In x (map fst (tested fo do vs)) ->
                           In x (map fst (tested false false vs))).
  { clear. induction vs as [|[p' d'|p' d' e'] vs IH]; simpl; [done| |done].
    intros x. destruct (survives fo do d'); simpl; [|by right; apply IH].
    intros [->|Hin]; [by left|right; by apply IH]. }
  intros [Hnotin Hnd]%NoDup_cons. destruct (survives fo do d); simpl; [|by apply IH].
  apply NoDup_cons. split; [|by apply IH].
  intros Hin%list_elem_of_In. apply Hnotin, list_elem_of_In. by apply Hsub.
Qed.

Lemma NoDup_List_filter {A} (f : A -> bool) (l : list A) :
  NoDup l -> NoDup (List.filter f l).
Proof using.
  induction l as [|x l IH]; simpl; [done|].
  intros [Hnotin Hnd]%NoDup_cons. destruct (f x); [|by apply IH].
  apply NoDup_cons. split; [|by apply IH].
  intros Hin%list_elem_of_In%filter_In. apply Hnotin, list_elem_of_In. tauto.
Qed.

(** X14.  No path is returned twice: when the traversal passes pairwise
    different paths to the callback, the matches are pairwise
    different, under every schedule. *)
Theorem no_path_twice sched fs root pattern fo do cs r :
  ToLower (ToLower pattern) = ToLower pattern ->
  NoDup (entry_paths (root_visits fs root)) ->
  Search_under sched fs root pattern fo do cs = Some r ->
  NoDup (matches r).
Proof.
  intros Hlow Hnd Hr. rewrite (matches_of_run _ _ _ _ _ _ _ _ Hlow Hr).
  apply NoDup_List_filter. by apply tested_sub.
Qed.

(** X15.  When the arguments resolve, [main] prints the diagnostics of
    the walk, then either "No path matches the pattern" or "Found Paths:"
    and the matches, and the process ends with code 0: the branch that
    prints "Error during file search" is never taken. *)
Theorem main_after_parse fs Args opts :
  Cli.ParseFlags Args = Cli.ParseOk opts ->
  main fs Args =
    (reported (root_visits fs (Cli.directory opts)) ++
     report (matches (Search fs (Cli.directory opts) (Cli.pattern opts)
                        (Cli.isFileOnly opts) (Cli.isDirOnly opts)
                        (Cli.isCaseSensitive opts))),
     0%Z).
Proof.
  intros Hparse. unfold Engine.main. rewrite Hparse.
  rewrite (proj1 (search_error_is_nil _ _ _ _ _ _)).
  rewrite (proj1 (diagnostics_in_walk_order _ _ _ _ _ _)).
  unfold report. by destruct (matches _).
Qed.

(** X16.  The process ends with code 1 exactly when the arguments do not
    resolve: no state of the file system makes [main] end with code 1. *)
Theorem exit_code_one_iff_usage_error fs Args :
  snd (main fs Args) = 1%Z <-> exists msg, Cli.ParseFlags Args = Cli.ParseError msg.
Proof.
  destruct (Cli.ParseFlags Args) as [|help code|msg|opts] eqn:Hparse.
  - unfold Engine.main. rewrite Hparse. simpl. split; [done|]. by intros [? ?].
  - assert (code = 0%Z) as ->.
    { destruct Args as [|program args]; [done|].
      rewrite CliFacts.ParseFlags_unfold in Hparse.
      destruct (has_flag Cli.is_help_flag args); [by injection Hparse|].
      destruct (positionals args) as [|d [|p [|x l]]]; try done.
      by destruct (_ && _). }
    unfold Engine.main. rewrite Hparse. simpl. split; [done|]. by intros [? ?].
  - unfold Engine.main. rewrite Hparse. simpl. split; [by exists msg|done].
  - rewrite (main_after_parse _ _ _ Hparse). simpl. split; [done|]. by intros [? ?].
Qed.
End Platform.

End EngineExtra.

(** * More on the sample tree *)

Module SampleExtra.
Import Fs Engine Props Sample PoolExtra EngineExtra.

Local Abbreviation step_ref :=
  (step RefPlatform.ToLower RefPlatform.Base RefPlatform.Match).

Lemma mutual_exclusion_witness :
  exists p,
    exec_ref false (contended ++ [0]%nat) (start "A.TXT" two_tasks) = Some p /\
    v_locked p = true /\
    crit (gs p) <= 1 /\ (v_locked p = true <-> crit (gs p) = 1).
Proof.
  eexists. split; [vm_compute; reflexivity|]. split; [reflexivity|].
  apply (mutual_exclusion RefPlatform.ToLower RefPlatform.Base RefPlatform.Match
           false (contended ++ [0]%nat) "A.TXT" two_tasks).
  vm_compute. reflexivity.
Defined.

Lemma matches_change_by_locked_append_witness :
  exists p p',
    exec_ref false contended (start "A.TXT" two_tasks) = Some p /\
    step_ref false 0 p = Some p' /\
    v_matches p = [] /\ v_matches p' = ["root\a.txt"] /\
    (v_matches p' = v_matches p \/
     (exists g, gs p !! 0%nat = Some g /\ g_pc g = AtAppend /\
                v_matches p' = v_matches p ++ [g_path g]) /\
     v_locked p = true /\ v_locked p' = true /\ crit (gs p) = 1).
Proof.
  eexists _, _. split; [vm_compute; reflexivity|].
  split; [vm_compute; reflexivity|]. split; [reflexivity|]. split; [reflexivity|].
  apply (matches_change_by_locked_append RefPlatform.ToLower RefPlatform.Base
           RefPlatform.Match false contended "A.TXT" two_tasks).
  - vm_compute. reflexivity.
  - vm_compute. reflexivity.
Defined.

Lemma wait_group_is_released_witness :
  length contended <= 6 * length two_tasks /\
  exists sched' p',
    exec_ref false (contended ++ sched') (start "A.TXT" two_tasks) = Some p' /\
    all_done p' = true.
Proof.
  eapply (wait_group_is_released RefPlatform.ToLower RefPlatform.Base
            RefPlatform.Match false contended "A.TXT" two_tasks).
  vm_compute. reflexivity.
Defined.

Lemma case_sensitive_keeps_pattern_witness :
  exists p,
    exec_ref true [0; 1; 0; 1; 1; 1; 1]%nat (start "a.txt" two_tasks) = Some p /\
    v_matches p = ["root\sub\a.txt"] /\
    v_pattern p = "a.txt".
Proof.
  eexists. split; [vm_compute; reflexivity|]. split; [reflexivity|].
  apply (case_sensitive_keeps_pattern RefPlatform.ToLower RefPlatform.Base
           RefPlatform.Match [0; 1; 0; 1; 1; 1; 1]%nat "a.txt" two_tasks).
  vm_compute. reflexivity.
Defined.

Lemma search_error_is_nil_witness :
  err (Search_ref disk "root" "A.TXT" false false false) = None /\
  forall r,
    Search_under_ref interleaved disk "root" "A.TXT" false false false = Some r ->
    err r = None.
Proof.
  destruct (search_error_is_nil RefPlatform.ToLower RefPlatform.Base RefPlatform.Join
              RefPlatform.Match RefPlatform.errno_text
              disk "root" "A.TXT" false false false) as [H1 H2].
  split; [exact H1|]. intros r. apply H2.
Defined.

Lemma diagnostics_in_walk_order_witness :
  printed (Search_ref disk "root" "A.TXT" true false true) =
    ["Skipping: root\locked (Access Denied)"] /\
  forall r,
    Search_under_ref interleaved disk "root" "A.TXT" false false false = Some r ->
    printed r = ["Skipping: root\locked (Access Denied)"].
Proof.
  split.
  - exact (proj1 (diagnostics_in_walk_order RefPlatform.ToLower RefPlatform.Base
                    RefPlatform.Join RefPlatform.Match RefPlatform.errno_text
                    disk "root" "A.TXT" true false true)).
  - intros r.
    exact (proj2 (diagnostics_in_walk_order RefPlatform.ToLower RefPlatform.Base
                    RefPlatform.Join RefPlatform.Match RefPlatform.errno_text
                    disk "root" "A.TXT" false false false) interleaved r).
Defined.

Lemma runs_agree_witness :
  Search_under_ref interleaved disk "root" "A.TXT" false false false =
    Some (mkResult ["Skipping: root\locked (Access Denied)"]
                   ["root\sub\a.txt"; "root\a.txt"] None) /\
  Search_under_ref (in_order_ref disk "root" "A.TXT" false false false)
                   disk "root" "A.TXT" false false false =
    Some (mkResult ["Skipping: root\locked (Access Denied)"]
                   ["root\a.txt"; "root\sub\a.txt"] None) /\
  ["root\sub\a.txt"; "root\a.txt"] ≡ₚ ["root\a.txt"; "root\sub\a.txt"].
Proof.
  assert (H1 : Search_under_ref interleaved disk "root" "A.TXT" false false false =
    Some (mkResult ["Skipping: root\locked (Access Denied)"]
                   ["root\sub\a.txt"; "root\a.txt"] None)) by (vm_compute; reflexivity).
  assert (H2 : Search_under_ref (in_order_ref disk "root" "A.TXT" false false false)
                   disk "root" "A.TXT" false false false =
    Some (mkResult ["Skipping: root\locked (Access Denied)"]
                   ["root\a.txt"; "root\sub\a.txt"] None)) by (vm_compute; reflexivity).
  split; [exact H1|]. split; [exact H2|].
  exact (proj2 (proj2 (runs_agree RefPlatform.ToLower RefPlatform.Base
           RefPlatform.Join RefPlatform.Match RefPlatform.errno_text
           _ _ disk "root" "A.TXT" false false false _ _ eq_refl H1 H2))).
Defined.

Lemma both_filters_match_nothing_witness :
  Search_under_ref [] disk "root" "*" true true false =
    Some (mkResult ["Skipping: root\locked (Access Denied)"] [] None) /\
  matches (mkResult ["Skipping: root\locked (Access Denied)"] [] None) = [].
Proof.
  assert (H : Search_under_ref [] disk "root" "*" true true false =
    Some (mkResult ["Skipping: root\locked (Access Denied)"] [] None))
    by (vm_compute; reflexivity).
  split; [exact H|].
  exact (both_filters_match_nothing RefPlatform.ToLower RefPlatform.Base
           RefPlatform.Join RefPlatform.Match RefPlatform.errno_text
           [] disk "root" "*" false _ H).
Defined.

Lemma matches_have_the_type_witness :
  Search_under_ref (in_order_ref disk "root" "*" true false false)
                   disk "root" "*" true false false =
    Some (mkResult ["Skipping: root\locked (Access Denied)"]
                   ["root\B.TXT"; "root\a.txt"; "root\sub\a.txt"] None) /\
  exists d,
    In (Entry "root\sub\a.txt" d) (root_visits RefPlatform.Join disk "root") /\
    (true = true -> IsDir d = false) /\
    (false = true -> IsDir d = true).
Proof.
  assert (H : Search_under_ref (in_order_ref disk "root" "*" true false false)
                   disk "root" "*" true false false =
    Some (mkResult ["Skipping: root\locked (Access Denied)"]
                   ["root\B.TXT"; "root\a.txt"; "root\sub\a.txt"] None))
    by (vm_compute; reflexivity).
  split; [exact H|].
  apply (matches_have_the_type RefPlatform.ToLower RefPlatform.Base
           RefPlatform.Join RefPlatform.Match RefPlatform.errno_text
           _ disk "root" "*" true false false _ H).
  simpl. auto.
Defined.

Lemma filters_partition_matches_witness :
  In "root\sub" ["root"; "root\B.TXT"; "root\a.txt"; "root\locked"; "root\sub";
                  "root\sub\a.txt"] <->
  In "root\sub" ["root\B.TXT"; "root\a.txt"; "root\sub\a.txt"] \/
  In "root\sub" ["root"; "root\locked"; "root\sub"].
Proof.
  apply (filters_partition_matches RefPlatform.ToLower RefPlatform.Base
           RefPlatform.Join RefPlatform.Match RefPlatform.errno_text
           (in_order_ref disk "root" "*" false false false)
           (in_order_ref disk "root" "*" true false false)
           (in_order_ref disk "root" "*" false true false)
           disk "root" "*" false
           (mkResult ["Skipping: root\locked (Access Denied)"]
              ["root"; "root\B.TXT"; "root\a.txt"; "root\locked"; "root\sub";
               "root\sub\a.txt"] None)
           (mkResult ["Skipping: root\locked (Access Denied)"]
              ["root\B.TXT"; "root\a.txt"; "root\sub\a.txt"] None)
           (mkResult ["Skipping: root\locked (Access Denied)"]
              ["root"; "root\locked"; "root\sub"] None));
    vm_compute; reflexivity.
Defined.

Lemma pattern_case_is_irrelevant_witness :
  ["root\sub\a.txt"; "root\a.txt"] ≡ₚ ["root\a.txt"; "root\sub\a.txt"].
Proof.
  apply (pattern_case_is_irrelevant RefPlatform.ToLower RefPlatform.Base
           RefPlatform.Join RefPlatform.Match RefPlatform.errno_text
           interleaved (in_order_ref disk "root" "a.txt" false false false)
           disk "root" "A.TXT" false false
           (mkResult ["Skipping: root\locked (Access Denied)"]
              ["root\sub\a.txt"; "root\a.txt"] None)
           (mkResult ["Skipping: root\locked (Access Denied)"]
              ["root\a.txt"; "root\sub\a.txt"] None));
    vm_compute; reflexivity.
Defined.

Lemma lone_root_is_the_only_candidate_witness :
  Search_under_ref (in_order_ref lone_disk "empty" "EMP*" false false false)
                   lone_disk "empty" "EMP*" false false false =
    Some (mkResult [] ["empty"] None) /\
  matches (mkResult [] ["empty"] None) =
    if survives false false (entry_of (Dir "empty" None [])) &&
       name_matches RefPlatform.ToLower RefPlatform.Base RefPlatform.Match
         false "EMP*" "empty"
    then ["empty"] else [].
Proof.
  assert (H : Search_under_ref (in_order_ref lone_disk "empty" "EMP*" false false false)
                   lone_disk "empty" "EMP*" false false false =
    Some (mkResult [] ["empty"] None)) by (vm_compute; reflexivity).
  split; [exact H|].
  exact (lone_root_is_the_only_candidate RefPlatform.ToLower RefPlatform.Base
           RefPlatform.Join RefPlatform.Match RefPlatform.errno_text
           _ lone_disk "empty" (Dir "empty" None []) "EMP*" false false false _
           eq_refl eq_refl eq_refl H).
Defined.

Lemma no_path_twice_witness :
  NoDup ["root\sub\a.txt"; "root\a.txt"].
Proof.
  apply (no_path_twice RefPlatform.ToLower RefPlatform.Base
           RefPlatform.Join RefPlatform.Match RefPlatform.errno_text
           interleaved disk "root" "A.TXT" false false false
           (mkResult ["Skipping: root\locked (Access Denied)"]
              ["root\sub\a.txt"; "root\a.txt"] None)).
  - reflexivity.
  - apply (bool_decide_unpack _). vm_compute. reflexivity.
  - vm_compute. reflexivity.
Defined.

Lemma main_after_parse_witness :
  main_ref disk ["search"; "root"; "*.txt"] =
    (["Skipping: root\locked (Access Denied)"; "Found Paths:";
      "root\B.TXT"; "root\a.txt"; "root\sub\a.txt"], 0%Z).
Proof.
  pose proof (main_after_parse RefPlatform.ToLower RefPlatform.Base
                RefPlatform.Join RefPlatform.Match RefPlatform.errno_text
                disk ["search"; "root"; "*.txt"]
                (Cli.mkOptions false false false "root" "*.txt") eq_refl) as H.
  vm_compute in H. vm_compute. exact H.
Defined.

End SampleExtra.
